(** * ghw snapshot subsystem: capture and restore of pseudo-filesystem trees

  A shallow embedding of the Go package [cmd/ghw/snapshot]:
  the PCI bus walker ([pciGlobs], [scanPCIDeviceRoot], [isPCIBridge]),
  the device-class cloner ([cloneContentByClass], [netGlobs], [gpuGlobs]),
  the snapshotter ([copyFileGlobs], [copyFile], [copyLink],
  [copyPseudoFile], [createSnapshot]) and the expander ([Expand],
  [untar]), over a model of the operating system's file interface. *)

From Stdlib Require Import ZArith Lia Bool.
From Stdlib Require Import Strings.String Strings.Ascii.
From stdpp Require Import base option list gmap strings sorting.

Local Open Scope string_scope.
Local Open Scope Z_scope.
Local Open Scope list_scope.

(** ** Go's [strings] package, the functions the snapshot code calls *)

Module GoStrings.

(** [strip_prefix p s] is [Some r] when [s] is [p] followed by [r]. *)
Fixpoint strip_prefix (p s : string) : option string :=
  match p, s with
  | EmptyString, _ => Some s
  | String a p', String b s' =>
      if Ascii.eqb a b then strip_prefix p' s' else None
  | String _ _, EmptyString => None
  end.

Definition HasPrefix (s prefix : string) : bool :=
  match strip_prefix prefix s with Some _ => true | None => false end.

Definition TrimPrefix (s prefix : string) : string :=
  match strip_prefix prefix s with Some r => r | None => s end.

Definition rev_string (s : string) : string :=
  string_of_list_ascii (List.rev (list_ascii_of_string s)).

Definition TrimSuffix (s suffix : string) : string :=
  match strip_prefix (rev_string suffix) (rev_string s) with
  | Some r => rev_string r
  | None => s
  end.

Fixpoint Contains (s substr : string) : bool :=
  match strip_prefix substr s with
  | Some _ => true
  | None =>
      match s with
      | EmptyString => false
      | String _ s' => Contains s' substr
      end
  end.

Fixpoint ContainsRune (s : string) (r : ascii) : bool :=
  match s with
  | EmptyString => false
  | String a s' => if Ascii.eqb a r then true else ContainsRune s' r
  end.

(** [strings.Split(s, sep)] for a one-character separator. *)
Fixpoint split_on (sep : ascii) (s : string) : list string :=
  match s with
  | EmptyString => [EmptyString]
  | String a s' =>
      if Ascii.eqb a sep then EmptyString :: split_on sep s'
      else match split_on sep s' with
           | [] => [String a EmptyString]
           | c :: cs => String a c :: cs
           end
  end.

(** [strings.Join(elems, sep)]. *)
Fixpoint Join (elems : list string) (sep : string) : string :=
  match elems with
  | [] => EmptyString
  | [e] => e
  | e :: es => e +:+ sep +:+ Join es sep
  end.

End GoStrings.

(** ** Go's [path/filepath] package on a Unix system *)

Module filepath.
Import GoStrings.

Definition Separator : ascii := "/"%char.
Definition sep : string := "/".

Definition rooted (p : string) : bool :=
  match p with String a _ => Ascii.eqb a Separator | EmptyString => false end.

(** One step of the lexical cleaning: [stack] holds the elements kept so
    far, innermost first. *)
Definition clean_step (isrooted : bool) (stack : list string) (c : string)
  : list string :=
  if String.eqb c "" || String.eqb c "." then stack
  else if String.eqb c ".." then
    match stack with
    | top :: below =>
        if String.eqb top ".." then c :: stack else below
    | [] => if isrooted then [] else [c]
    end
  else c :: stack.

Definition clean_elems (isrooted : bool) (cs : list string) : list string :=
  List.rev (List.fold_left (clean_step isrooted) cs []).

(** [filepath.Clean]: single separators, no [.] elements, inner [..]
    elements cancelled against the element before them, [..] dropped at
    the root; the empty result is [.]. *)
Definition Clean (p : string) : string :=
  let r := rooted p in
  let body := Join (clean_elems r (split_on Separator p)) sep in
  if r then sep +:+ body
  else if String.eqb body "" then "." else body.

(** [filepath.Join]: leading empty elements are ignored, the rest is joined
    with separators and cleaned; no non-empty element gives the empty
    string. *)
Fixpoint Join (elem : list string) : string :=
  match elem with
  | [] => ""
  | e :: rest =>
      if String.eqb e "" then Join rest
      else Clean (GoStrings.Join elem sep)
  end.

(** Everything up to and including the last separator. *)
Fixpoint upto_last_sep (p : string) : string :=
  match p with
  | EmptyString => EmptyString
  | String a p' =>
      if ContainsRune p Separator then String a (upto_last_sep p')
      else EmptyString
  end.

(** [filepath.Dir]. *)
Definition Dir (p : string) : string := Clean (upto_last_sep p).

End filepath.


(** ** The operating system's file interface

  The snapshot code reaches the file system only through Go's [os] and
  [path/filepath] calls.  The file system is a finite map from physical
  locations (the names leading from the root directory) to nodes; every
  call resolves its path argument the way the kernel does, following
  symbolic links.  The environment may make any call fail (permissions,
  I/O errors on pseudo-files): [fault] names the error a call on a given
  path meets, if any. *)

Module OS.
Import GoStrings.

Inductive Errno :=
| ENOENT | EEXIST | ENOTDIR | EISDIR | EACCES | EPERM | EINVAL | ELOOP | EIO.

Definition errno_text (e : Errno) : string :=
  match e with
  | ENOENT => "no such file or directory"
  | EEXIST => "file exists"
  | ENOTDIR => "not a directory"
  | EISDIR => "is a directory"
  | EACCES => "permission denied"
  | EPERM => "operation not permitted"
  | EINVAL => "invalid argument"
  | ELOOP => "too many levels of symbolic links"
  | EIO => "input/output error"
  end.

(** Go [error] values met in the package. *)
Inductive error :=
| PathError (op path : string) (errno : Errno)  (* *fs.PathError, *os.LinkError *)
| ErrInvalid                                     (* os.ErrInvalid *)
| ErrBadPattern                                  (* filepath.ErrBadPattern *)
| ErrStream (msg : string)                       (* gzip and tar decoding errors *)
| ErrorString (msg : string)                     (* fmt.Errorf *)
| Panic (msg : string).                          (* a run-time panic *)

Definition error_text (e : error) : string :=
  match e with
  | PathError op p en => op +:+ " " +:+ p +:+ ": " +:+ errno_text en
  | ErrInvalid => "invalid argument"
  | ErrBadPattern => "syntax error in pattern"
  | ErrStream m => m
  | ErrorString m => m
  | Panic m => "panic: " +:+ m
  end.

(** [errors.Is(err, os.ErrPermission)], [os.ErrExist], [os.ErrNotExist]. *)
Definition is_ErrPermission (e : error) : bool :=
  match e with
  | PathError _ _ EACCES | PathError _ _ EPERM => true
  | _ => false
  end.

Definition is_ErrExist (e : error) : bool :=
  match e with PathError _ _ EEXIST => true | _ => false end.

Definition is_ErrNotExist (e : error) : bool :=
  match e with PathError _ _ ENOENT => true | _ => false end.

Inductive result (A : Type) :=
| Ok (a : A)
| Fail (e : error).
Arguments Ok {A} a.
Arguments Fail {A} e.

Definition bytes := list Byte.byte.

(** [os.FileMode] bits. *)
Definition ModeDir : Z := 2 ^ 31.
Definition ModeSymlink : Z := 2 ^ 27.
Definition ModeNamedPipe : Z := 2 ^ 25.
Definition ModeSocket : Z := 2 ^ 24.
Definition ModeDevice : Z := 2 ^ 26.
Definition ModeCharDevice : Z := 2 ^ 21.
Definition ModeIrregular : Z := 2 ^ 19.
Definition ModeType : Z :=
  Z.lor ModeDir (Z.lor ModeSymlink (Z.lor ModeNamedPipe
    (Z.lor ModeSocket (Z.lor ModeDevice (Z.lor ModeCharDevice ModeIrregular))))).
Definition ModePerm : Z := 511. (* 0o777 *)

Definition Perm (m : Z) : Z := Z.land m ModePerm.
Definition mode_IsDir (m : Z) : bool := negb (Z.land m ModeDir =? 0).
Definition mode_IsSymlink (m : Z) : bool := negb (Z.land m ModeSymlink =? 0).
Definition mode_IsRegular (m : Z) : bool := Z.land m ModeType =? 0.

Record FileInfo := { fi_name : string; fi_size : Z; fi_mode : Z }.
Definition IsDir (fi : FileInfo) : bool := mode_IsDir (fi_mode fi).

Record DirEntry := { de_name : string; de_type : Z }.
Definition de_IsDir (d : DirEntry) : bool := mode_IsDir (de_type d).

Inductive Node :=
| NFile (perm : Z) (data : bytes)
| NDir (perm : Z)
| NLink (target : string).

Definition node_mode (n : Node) : Z :=
  match n with
  | NFile p _ => Perm p
  | NDir p => Z.lor ModeDir (Perm p)
  | NLink _ => Z.lor ModeSymlink ModePerm
  end.

Definition node_size (n : Node) : Z :=
  match n with
  | NFile _ d => Z.of_nat (length d)
  | NDir _ => 4096
  | NLink t => Z.of_nat (String.length t)
  end.

(** A physical location: the names from the root directory down. *)
Definition loc := list string.

Inductive Syscall :=
| SysStat | SysLstat | SysReadDir | SysReadlink | SysMkdir | SysSymlink
| SysOpen | SysRead | SysWrite.

Record World := {
  fs : gmap loc Node;
  cwd : loc;
  umask : Z;
  fault : Syscall -> string -> option Errno;
  (** the matches of a wildcard pattern against the live tree *)
  glob_matches : string -> result (list string)
}.

Definition set_fs (w : World) (m : gmap loc Node) : World :=
  {| fs := m; cwd := cwd w; umask := umask w; fault := fault w;
     glob_matches := glob_matches w |}.

Definition node_at (m : gmap loc Node) (l : loc) : option Node :=
  match l with
  | [] => Some (NDir 493) (* the root directory, 0o755 *)
  | _ => m !! l
  end.

Definition trivial_elem (c : string) : bool :=
  String.eqb c "" || String.eqb c ".".

(** Kernel path resolution from directory [cur] over the remaining
    elements.  [follow] says whether a symbolic link in the last position
    is followed ([stat]) or not ([lstat]); at most [hops] links are
    traversed.  The location returned may not exist, but its parent
    does. *)
Fixpoint namei (hops : nat) (m : gmap loc Node) (follow : bool)
    (cur : loc) (elems : list string) {struct hops} : Errno + loc :=
  (fix go (cur : loc) (elems : list string) {struct elems} : Errno + loc :=
     match elems with
     | [] => inr cur
     | c :: rest =>
         if trivial_elem c then go cur rest
         else if String.eqb c ".." then go (removelast cur) rest
         else
           match node_at m (cur ++ [c]) with
           | None =>
               match rest with
               | [] => inr (cur ++ [c])
               | _ => inl ENOENT
               end
           | Some (NDir _) => go (cur ++ [c]) rest
           | Some (NFile _ _) =>
               match rest with
               | [] => inr (cur ++ [c])
               | _ => inl ENOTDIR
               end
           | Some (NLink t) =>
               match rest, follow with
               | [], false => inr (cur ++ [c])
               | _, _ =>
                   match hops with
                   | O => inl ELOOP
                   | S h =>
                       namei h m follow
                         (if filepath.rooted t then [] else cur)
                         (split_on filepath.Separator t ++ rest)
                   end
               end
           end
     end) cur elems.

Definition max_symlinks : nat := 40.

Definition resolve (w : World) (follow : bool) (p : string) : Errno + loc :=
  if String.eqb p "" then inl ENOENT
  else namei max_symlinks (fs w) follow
         (if filepath.rooted p then [] else cwd w)
         (split_on filepath.Separator p).

Definition base_name (p : string) : string :=
  List.last (List.filter (fun c => negb (trivial_elem c))
               (split_on filepath.Separator p)) "/".

Definition info_of (name : string) (n : Node) : FileInfo :=
  {| fi_name := name; fi_size := node_size n; fi_mode := node_mode n |}.

Definition stat_with (sc : Syscall) (op : string) (follow : bool)
    (p : string) (w : World) : result FileInfo :=
  match fault w sc p with
  | Some en => Fail (PathError op p en)
  | None =>
      match resolve w follow p with
      | inl en => Fail (PathError op p en)
      | inr l =>
          match node_at (fs w) l with
          | None => Fail (PathError op p ENOENT)
          | Some n => Ok (info_of (base_name p) n)
          end
      end
  end.

(** [os.Stat] and [os.Lstat]. *)
Definition Stat : string -> World -> result FileInfo :=
  stat_with SysStat "stat" true.
Definition Lstat : string -> World -> result FileInfo :=
  stat_with SysLstat "lstat" false.

(** [os.Readlink]. *)
Definition Readlink (p : string) (w : World) : result string :=
  match fault w SysReadlink p with
  | Some en => Fail (PathError "readlink" p en)
  | None =>
      match resolve w false p with
      | inl en => Fail (PathError "readlink" p en)
      | inr l =>
          match node_at (fs w) l with
          | None => Fail (PathError "readlink" p ENOENT)
          | Some (NLink t) => Ok t
          | Some _ => Fail (PathError "readlink" p EINVAL)
          end
      end
  end.

Fixpoint insert_by_name (d : DirEntry) (l : list DirEntry) : list DirEntry :=
  match l with
  | [] => [d]
  | x :: l' =>
      if String.leb (de_name d) (de_name x) then d :: l
      else x :: insert_by_name d l'
  end.

Definition sort_by_name (l : list DirEntry) : list DirEntry :=
  List.fold_right insert_by_name [] l.

Definition child_of (d : loc) (kn : loc * Node) : option DirEntry :=
  match List.rev (fst kn) with
  | name :: rparent =>
      if decide (List.rev rparent = d)
      then Some {| de_name := name;
                   de_type := Z.land (node_mode (snd kn)) ModeType |}
      else None
  | [] => None
  end.

(** The entries of the directory at [d], sorted by file name as
    [os.ReadDir] returns them. *)
Definition entries_at (m : gmap loc Node) (d : loc) : list DirEntry :=
  sort_by_name (omap (child_of d) (map_to_list m)).

(** [os.ReadDir]. *)
Definition ReadDir (p : string) (w : World) : result (list DirEntry) :=
  match fault w SysReadDir p with
  | Some en => Fail (PathError "open" p en)
  | None =>
      match resolve w true p with
      | inl en => Fail (PathError "open" p en)
      | inr l =>
          match node_at (fs w) l with
          | None => Fail (PathError "open" p ENOENT)
          | Some (NDir _) => Ok (entries_at (fs w) l)
          | Some _ => Fail (PathError "readdirent" p ENOTDIR)
          end
      end
  end.

(** *** Calls that change the file system *)

Definition Handle := loc.

(** An open [*os.File]: the node it is attached to and the name it was
    opened under. *)
Record File := { f_node : Handle; f_name : string }.

Definition O_RDONLY : Z := 0.
Definition O_WRONLY : Z := 1.
Definition O_RDWR : Z := 2.
Definition O_CREATE : Z := 64.
Definition O_TRUNC : Z := 512.

Definition has_flag (flag bit : Z) : bool := negb (Z.land flag bit =? 0).

Definition created_perm (w : World) (perm : Z) : Z :=
  Z.land (Perm perm) (Z.lnot (umask w)).

Fixpoint drop_empty_front (l : list string) : list string :=
  match l with
  | c :: l' => if String.eqb c "" then drop_empty_front l' else l
  | [] => []
  end.

(** A path without its trailing separators, as elements. *)
Definition elems_no_trailing (p : string) : list string :=
  List.rev (drop_empty_front (List.rev (split_on filepath.Separator p))).

Definition resolve_new (w : World) (p : string) : Errno + loc :=
  if String.eqb p "" then inl ENOENT
  else namei max_symlinks (fs w) false
         (if filepath.rooted p then [] else cwd w)
         (elems_no_trailing p).

(** [os.Mkdir]. *)
Definition Mkdir (p : string) (perm : Z) (w : World) : result unit * World :=
  match fault w SysMkdir p with
  | Some en => (Fail (PathError "mkdir" p en), w)
  | None =>
      match resolve_new w p with
      | inl en => (Fail (PathError "mkdir" p en), w)
      | inr l =>
          match node_at (fs w) l with
          | Some _ => (Fail (PathError "mkdir" p EEXIST), w)
          | None => (Ok tt, set_fs w (<[l := NDir (created_perm w perm)]> (fs w)))
          end
      end
  end.

Definition is_sep (a : ascii) : bool := Ascii.eqb a filepath.Separator.

Fixpoint drop_while (f : ascii -> bool) (l : list ascii) : list ascii :=
  match l with
  | a :: l' => if f a then drop_while f l' else l
  | [] => []
  end.

(** The parent that [os.MkdirAll] recurses on: the path without its
    trailing separators, its last element and the separator before it. *)
Definition mkdir_parent (p : string) : string :=
  let r := List.rev (list_ascii_of_string p) in
  let r := drop_while is_sep r in
  let r := drop_while (fun a => negb (is_sep a)) r in
  string_of_list_ascii (List.rev (List.tl r)).

Fixpoint MkdirAll_rec (fuel : nat) (p : string) (perm : Z) (w : World)
  : result unit * World :=
  match fuel with
  | O => (Fail (Panic "MkdirAll: recursion bound"), w)
  | S fuel' =>
      match Stat p w with
      | Ok dir =>
          if IsDir dir then (Ok tt, w)
          else (Fail (PathError "mkdir" p ENOTDIR), w)
      | Fail _ =>
          let parent := mkdir_parent p in
          let '(r, w1) :=
            if String.eqb parent "" then (Ok tt, w)
            else MkdirAll_rec fuel' parent perm w in
          match r with
          | Fail e => (Fail e, w1)
          | Ok _ =>
              match Mkdir p perm w1 with
              | (Fail err, w2) =>
                  match Lstat p w2 with
                  | Ok dir => if IsDir dir then (Ok tt, w2) else (Fail err, w2)
                  | Fail _ => (Fail err, w2)
                  end
              | (Ok _, w2) => (Ok tt, w2)
              end
          end
      end
  end.

(** [os.MkdirAll]; each recursive call is on a strictly shorter path. *)
Definition MkdirAll (p : string) (perm : Z) (w : World) : result unit * World :=
  MkdirAll_rec (S (String.length p)) p perm w.

(** [os.Symlink]. *)
Definition Symlink (oldname newname : string) (w : World)
  : result unit * World :=
  match fault w SysSymlink newname with
  | Some en => (Fail (PathError "symlink" newname en), w)
  | None =>
      match resolve w false newname with
      | inl en => (Fail (PathError "symlink" newname en), w)
      | inr l =>
          match node_at (fs w) l with
          | Some _ => (Fail (PathError "symlink" newname EEXIST), w)
          | None => (Ok tt, set_fs w (<[l := NLink oldname]> (fs w)))
          end
      end
  end.

(** [os.OpenFile]. *)
Definition OpenFile (name : string) (flag perm : Z) (w : World)
  : result File * World :=
  match fault w SysOpen name with
  | Some en => (Fail (PathError "open" name en), w)
  | None =>
      match resolve w true name with
      | inl en => (Fail (PathError "open" name en), w)
      | inr l =>
          let f := {| f_node := l; f_name := name |} in
          match node_at (fs w) l with
          | None =>
              if has_flag flag O_CREATE then
                (Ok f, set_fs w (<[l := NFile (created_perm w perm) []]> (fs w)))
              else (Fail (PathError "open" name ENOENT), w)
          | Some (NFile pm d) =>
              if has_flag flag O_TRUNC then
                (Ok f, set_fs w (<[l := NFile pm []]> (fs w)))
              else (Ok f, w)
          | Some (NDir _) =>
              if has_flag flag O_WRONLY || has_flag flag O_RDWR
                 || has_flag flag O_CREATE
              then (Fail (PathError "open" name EISDIR), w)
              else (Ok f, w)
          | Some (NLink _) => (Fail (PathError "open" name ELOOP), w)
          end
      end
  end.

(** [os.Create] and [os.Open]. *)
Definition Create (name : string) (w : World) : result File * World :=
  OpenFile name (Z.lor O_RDWR (Z.lor O_CREATE O_TRUNC)) 438 w.

Definition Open (name : string) (w : World) : result File * World :=
  OpenFile name O_RDONLY 0 w.

(** Writing [buf] through a freshly opened file: the bytes land at offset
    zero, and what the file held beyond them stays. *)
Definition File_Write (f : File) (buf : bytes) (w : World)
  : result unit * World :=
  match fault w SysWrite (f_name f) with
  | Some en => (Fail (PathError "write" (f_name f) en), w)
  | None =>
      match node_at (fs w) (f_node f) with
      | Some (NFile pm d) =>
          (Ok tt, set_fs w (<[f_node f :=
                               NFile pm (buf ++ List.skipn (length buf) d)]> (fs w)))
      | _ => (Fail (PathError "write" (f_name f) EINVAL), w)
      end
  end.

(** Reading a freshly opened file to its end. *)
Definition File_ReadAll (f : File) (w : World) : result bytes :=
  match fault w SysRead (f_name f) with
  | Some en => Fail (PathError "read" (f_name f) en)
  | None =>
      match node_at (fs w) (f_node f) with
      | Some (NFile _ d) => Ok d
      | Some (NDir _) => Fail (PathError "read" (f_name f) EISDIR)
      | _ => Fail (PathError "read" (f_name f) EINVAL)
      end
  end.

Definition File_Stat (f : File) (w : World) : result FileInfo :=
  match node_at (fs w) (f_node f) with
  | Some n => Ok (info_of (base_name (f_name f)) n)
  | None => Fail (PathError "stat" (f_name f) ENOENT)
  end.

(** [os.ReadFile]. *)
Definition ReadFile (name : string) (w : World) : result bytes :=
  match Open name w with
  | (Fail e, _) => Fail e
  | (Ok f, _) => File_ReadAll f w
  end.

(** *** [filepath.Glob] and [filepath.Walk] *)

Definition hasMeta (pattern : string) : bool :=
  ContainsRune pattern "*" || ContainsRune pattern "?"
  || ContainsRune pattern "[" || ContainsRune pattern "\".

Definition Glob (pattern : string) (w : World) : result (list string) :=
  if negb (hasMeta pattern) then
    match Lstat pattern w with
    | Fail _ => Ok []
    | Ok _ => Ok [pattern]
    end
  else glob_matches w pattern.

Definition readDirNames (dirname : string) (w : World) : result (list string) :=
  match ReadDir dirname w with
  | Fail e => Fail e
  | Ok entries => Ok (List.map de_name entries)
  end.

Section Walk.
Context {St : Type}.
(** The walk function receives the path, the file information (absent when
    [lstat] failed) and the error met on the way; it threads its own state. *)
Context (walkFn : string -> option FileInfo -> option error -> St -> result unit * St).
Context (w : World).

(** The recursion of [filepath.Walk].  The root is handed to the walk
    function as given; the path of everything below is built with
    [filepath.Join], hence cleaned. *)
Fixpoint walk (fuel : nat) (path : string) (info : FileInfo) (st : St)
  : result unit * St :=
  if negb (IsDir info) then walkFn path (Some info) None st
  else
    let names := readDirNames path w in
    let err := match names with Fail e => Some e | Ok _ => None end in
    match walkFn path (Some info) err st, names with
    | (Fail e1, st1), _ => (Fail e1, st1)
    | (Ok _, st1), Fail _ => (Ok tt, st1)
    | (Ok _, st1), Ok names =>
        match fuel with
        | O => (Fail (Panic "walk: depth bound"), st1)
        | S fuel' =>
            (fix each (names : list string) (st : St) : result unit * St :=
               match names with
               | [] => (Ok tt, st)
               | name :: names' =>
                   let filename := filepath.Join [path; name] in
                   match Lstat filename w with
                   | Fail err =>
                       match walkFn filename None (Some err) st with
                       | (Fail e, st') => (Fail e, st')
                       | (Ok _, st') => each names' st'
                       end
                   | Ok fileInfo =>
                       match walk fuel' filename fileInfo st with
                       | (Fail e, st') => (Fail e, st')
                       | (Ok _, st') => each names' st'
                       end
                   end
               end) names st1
        end
    end.

(** [filepath.Walk]; the walk does not follow symbolic links, so it never
    goes deeper than the file system has nodes. *)
Definition Walk (root : string) (st : St) : result unit * St :=
  match Lstat root w with
  | Fail err => walkFn root None (Some err) st
  | Ok info => walk (S (size (fs w))) root info st
  end.

End Walk.

End OS.

(** ** PCI addresses ([pkg/pci/address]) *)

Module pciaddr.

Record Address := {
  Domain : string;
  Bus : string;
  Device : string;
  Function : string
}.

Definition is_hex (a : ascii) : bool :=
  let n := nat_of_ascii a in
  ((48 <=? n) && (n <=? 57) || (97 <=? n) && (n <=? 102)
   || (65 <=? n) && (n <=? 70))%nat.

Definition all_hex (l : list ascii) : bool := List.forallb is_hex l.

(** Modelled from the spec: [pciaddr.FromString] of [pkg/pci/address],
    which is not among the sources.  The string must decompose exactly
    into the four hexadecimal fields of the shape [dddd:dd:dd.d],
    separated by [:], [:] and [.]; anything else is no address. *)
Definition FromString (s : string) : option Address :=
  match list_ascii_of_string s with
  | [d1; d2; d3; d4; c1; b1; b2; c2; v1; v2; c3; f1] =>
      if all_hex [d1; d2; d3; d4; b1; b2; v1; v2; f1]
         && Ascii.eqb c1 ":" && Ascii.eqb c2 ":" && Ascii.eqb c3 "."
      then Some {| Domain := string_of_list_ascii [d1; d2; d3; d4];
                   Bus := string_of_list_ascii [b1; b2];
                   Device := string_of_list_ascii [v1; v2];
                   Function := string_of_list_ascii [f1] |}
      else None
  | _ => None
  end.

End pciaddr.

(** ** The PCI bus walker and the device-class cloner *)

Module snapshot.
Import OS.

Definition sysBusPCIDir : string := "/sys/bus/pci/devices".

Definition perDevEntries : list string :=
  ["class"; "device"; "driver"; "irq"; "local_cpulist"; "modalias";
   "numa_node"; "revision"; "vendor"].

Definition findPCIEntryFromPath (root entryName : string) (w : World)
  : result string :=
  let entryPath := filepath.Join [root; entryName] in
  match Lstat entryPath w with
  | Fail err =>
      Fail (ErrorString ("stat(" +:+ entryPath +:+ ") failed: "
                         +:+ error_text err +:+ String "010" ""))
  | Ok fi =>
      if Z.land (fi_mode fi) ModeSymlink =? 0 then
        (* regular file, nothing to resolve *)
        Ok entryPath
      else
        match Readlink entryPath w with
        | Fail err =>
            Fail (ErrorString ("readlink(" +:+ entryPath +:+ ") failed: "
                               +:+ error_text err +:+ " - skipped"
                               +:+ String "010" ""))
        | Ok target => Ok (filepath.Clean (filepath.Join [root; target]))
        end
  end.

Section Walker.
(** The address parser is used as a predicate only. *)
Context {A : Type} (FromString : string -> option A).

(** The loop of [isPCIBridge] over the listed nodes. *)
Fixpoint bridge_scan (subNodes : list DirEntry) : bool :=
  match subNodes with
  | [] => false
  | subNode :: rest =>
      if negb (de_IsDir subNode) then bridge_scan rest
      else match FromString (de_name subNode) with
           | Some _ => true
           | None => bridge_scan rest
           end
  end.

Definition isPCIBridge (entryPath : string) (w : World) : bool :=
  match ReadDir entryPath w with
  | Fail _ => false
  | Ok subNodes => bridge_scan subNodes
  end.

(** One iteration of the loop of [scanPCIDeviceRoot]; the accumulator
    holds [fileSpecs] and [pciRoots]. *)
Definition scan_entry (root : string) (w : World)
    (acc : list string * list string) (entry : DirEntry)
  : list string * list string :=
  let '(fileSpecs, pciRoots) := acc in
  let entryName := de_name entry in
  match FromString entryName with
  | None => acc
  | Some _ =>
      let entryPath := filepath.Join [root; entryName] in
      match findPCIEntryFromPath root entryName w with
      | Fail _ => acc
      | Ok pciEntry =>
          let fileSpecs := fileSpecs ++ [entryPath] in
          let fileSpecs :=
            List.fold_left
              (fun specs perNetEntry =>
                 specs ++ [filepath.Join [pciEntry; perNetEntry]])
              perDevEntries fileSpecs in
          let pciRoots :=
            if isPCIBridge entryPath w then pciRoots ++ [pciEntry]
            else pciRoots in
          (fileSpecs, pciRoots)
      end
  end.

Definition scanPCIDeviceRoot (root : string) (w : World)
  : list string * list string :=
  match ReadDir root w with
  | Fail _ => ([], [])
  | Ok entries => List.fold_left (scan_entry root w) entries ([], [])
  end.

(** The work-queue loop of [pciGlobs].  Go's [for] has no bound, so the
    loop takes fuel; [scanned] records, in order, the roots taken from
    the queue (it is not part of the Go state). *)
Fixpoint pciGlobs_loop (fuel : nat) (w : World)
    (pciRoots fileSpecs scanned : list string)
  : option (list string * list string) :=
  match fuel with
  | O => None
  | S fuel' =>
      match pciRoots with
      | [] => Some (fileSpecs, scanned)
      | pciRoot :: pciRoots' =>
          let '(specs, roots) := scanPCIDeviceRoot pciRoot w in
          pciGlobs_loop fuel' w (pciRoots' ++ roots) (fileSpecs ++ specs)
            (scanned ++ [pciRoot])
      end
  end.

Definition pciGlobs_trace (fuel : nat) (w : World)
  : option (list string * list string) :=
  pciGlobs_loop fuel w [sysBusPCIDir] ["/sys/bus/pci/drivers/*"] [].

Definition pciGlobs (fuel : nat) (w : World) : option (list string) :=
  option_map fst (pciGlobs_trace fuel w).

End Walker.

Definition filterFunc := string -> bool.

Definition filterNone (_ : string) : bool := true.

(** One iteration of the loop of [cloneContentByClass]. *)
Definition clone_entry (sysClass : string) (subEntries : list string)
    (filterName filterLink : filterFunc) (w : World)
    (fileSpecs : list string) (entry : DirEntry) : list string :=
  let devName := de_name entry in
  if negb (filterName devName) then fileSpecs
  else
    let devPath := filepath.Join [sysClass; devName] in
    match Readlink devPath w with
    | Fail _ => fileSpecs
    | Ok dest =>
        if negb (filterLink dest) then fileSpecs
        else
          let fileSpecs := fileSpecs ++ [devPath] in
          let devData := filepath.Clean (filepath.Join [sysClass; dest]) in
          List.fold_left
            (fun specs subEntry =>
               specs ++ [filepath.Join [devData; subEntry]])
            subEntries fileSpecs
    end.

Definition cloneContentByClass (devClass : string)
    (subEntries : list string) (filterName filterLink : filterFunc)
    (w : World) : list string :=
  let sysClass := filepath.Join ["sys"; "class"; devClass] in
  match ReadDir sysClass w with
  | Fail _ => []
  | Ok entries =>
      List.fold_left
        (clone_entry sysClass subEntries filterName filterLink w)
        entries []
  end.

Definition netGlobs (w : World) : list string :=
  let ifaceEntries := ["addr_assign_type"] in
  let filterLink := fun linkDest =>
    negb (GoStrings.Contains linkDest "devices/virtual/net") in
  cloneContentByClass "net" ifaceEntries filterNone filterLink w.

Definition gpuGlobs (w : World) : list string :=
  let cardEntries := ["device"] in
  let filterName := fun cardName =>
    if negb (GoStrings.HasPrefix cardName "card") then false
    else if GoStrings.ContainsRune cardName "-" then false
    else true in
  cloneContentByClass "drm" cardEntries filterName filterNone w.

(** ** The tar archive, as [archive/tar] and [compress/gzip] present it *)

Inductive TypeFlag :=
| TypeReg | TypeLink | TypeSymlink | TypeChar | TypeBlock | TypeDir | TypeFifo.

Record Header := {
  Typeflag : TypeFlag;
  Name : string;
  Linkname : string;
  Size : Z;
  Mode : Z
}.

(** An archive entry: its header and the bytes written after it. *)
Definition Entry : Type := Header * bytes.

(** The byte encoding of the gzip-compressed tar stream belongs to Go's
    libraries: [gz_tar] is what the two writers put out for a sequence of
    entries, [un_gz_tar] what the two readers deliver from bytes, namely the
    entries up to the end of the stream or up to the first decoding error. *)
Record Codec := {
  gz_tar : list Entry -> bytes;
  un_gz_tar : bytes -> list Entry * option error
}.

(** [tar.FileInfoHeader]. *)
Definition FileInfoHeader (fi : FileInfo) (link : string) : result Header :=
  let fm := fi_mode fi in
  let h := fun tf sz ln =>
    {| Typeflag := tf; Name := fi_name fi; Linkname := ln; Size := sz;
       Mode := Perm fm |} in
  if mode_IsRegular fm then Ok (h TypeReg (fi_size fi) "")
  else if mode_IsDir fm then
    Ok {| Typeflag := TypeDir; Name := fi_name fi +:+ "/"; Linkname := "";
          Size := 0; Mode := Perm fm |}
  else if mode_IsSymlink fm then Ok (h TypeSymlink 0 link)
  else if negb (Z.land fm ModeDevice =? 0) then
    if negb (Z.land fm ModeCharDevice =? 0) then Ok (h TypeChar 0 "")
    else Ok (h TypeBlock 0 "")
  else if negb (Z.land fm ModeNamedPipe =? 0) then Ok (h TypeFifo 0 "")
  else if negb (Z.land fm ModeSocket =? 0) then
    Fail (ErrorString "archive/tar: sockets not supported")
  else Fail (ErrorString "archive/tar: unknown file mode").

Definition set_Name (h : Header) (n : string) : Header :=
  {| Typeflag := Typeflag h; Name := n; Linkname := Linkname h;
     Size := Size h; Mode := Mode h |}.

(** The tar writer over the gzip writer over the output file [tw_file]
    (a nil [*os.File] when absent), with the entries written so far. *)
Record TarWriter := { tw_file : option File; tw_entries : list Entry }.

(** [tw.WriteHeader]: the first bytes reach the file at once, and a write
    to a nil file fails with [os.ErrInvalid]. *)
Definition WriteHeader (w : World) (hdr : Header) (tw : TarWriter)
  : result unit * TarWriter :=
  match tw_file tw with
  | None => (Fail ErrInvalid, tw)
  | Some f =>
      match fault w SysWrite (f_name f) with
      | Some en => (Fail (PathError "write" (f_name f) en), tw)
      | None =>
          (Ok tt, {| tw_file := tw_file tw;
                     tw_entries := tw_entries tw ++ [(hdr, [])] |})
      end
  end.

(** [io.Copy(tw, f)]: the bytes become the body of the entry last begun. *)
Definition tw_Copy (w : World) (data : bytes) (tw : TarWriter)
  : result unit * TarWriter :=
  match tw_file tw, List.rev (tw_entries tw) with
  | Some f, (hdr, body) :: before =>
      match fault w SysWrite (f_name f) with
      | Some en => (Fail (PathError "write" (f_name f) en), tw)
      | None =>
          (Ok tt, {| tw_file := tw_file tw;
                     tw_entries := List.rev before ++ [(hdr, body ++ data)] |})
      end
  | _, _ => (Fail ErrInvalid, tw)
  end.

(** ** The snapshotter *)

Definition staticGlobs : list string :=
  ["/proc/cpuinfo";
   "/proc/meminfo";
   "/proc/self/mounts";
   "/sys/devices/system/cpu/cpu*/cache/index*/*";
   "/sys/devices/system/cpu/cpu*/topology/*";
   "/sys/devices/system/memory/block_size_bytes";
   "/sys/devices/system/memory/memory*/online";
   "/sys/devices/system/memory/memory*/state";
   "/sys/devices/system/node/has_*";
   "/sys/devices/system/node/online";
   "/sys/devices/system/node/possible";
   "/sys/devices/system/node/node*/cpu*";
   "/sys/devices/system/node/node*/distance";
   "/sys/devices/system/node/node*/meminfo";
   "/sys/devices/system/node/node*/memory*";
   "/sys/devices/system/node/node*/hugepages/hugepages-*/*"].

Definition createPaths : list string := ["/sys/block"].

Record snapshotter := { buildPath : string; outPath : string }.

(** The snapshotter [New] builds from its arguments. *)
Definition new_snapshotter (buildPath outPath : string) : snapshotter :=
  {| buildPath := GoStrings.TrimSuffix buildPath filepath.sep;
     outPath := outPath |}.

Definition addDir (s : snapshotter) (dir : string) (w : World)
  : result unit * World :=
  let fp := filepath.Join [buildPath s; dir] in
  MkdirAll fp ModePerm w.

Definition copyLink (path targetPath : string) (w : World)
  : result unit * World :=
  match Readlink path w with
  | Fail err => (Fail err, w)
  | Ok target =>
      match Symlink target targetPath w with
      | (Fail err, w') =>
          if is_ErrExist err then (Ok tt, w') else (Fail err, w')
      | (Ok _, w') => (Ok tt, w')
      end
  end.

Definition copyPseudoFile (path targetPath : string) (w : World)
  : result unit * World :=
  match ReadFile path w with
  | Fail err => (Fail err, w)
  | Ok buf =>
      match Create targetPath w with
      | (Fail err, w1) => (Fail err, w1)
      | (Ok f, w1) =>
          match File_Write f buf w1 with
          | (Fail err, w2) => (Fail err, w2)
          | (Ok _, w2) => (Ok tt, w2)
          end
      end
  end.

Definition copyFile (s : snapshotter) (path : string) (w : World)
  : result unit * World :=
  let baseDir := filepath.Dir path in
  match addDir s baseDir w with
  | (Fail err, w1) => (Fail err, w1)
  | (Ok _, w1) =>
      match Lstat path w1 with
      | Fail err => (Fail err, w1)
      | Ok fi =>
          let destPath := filepath.Join [buildPath s; path] in
          if IsDir fi then
            if GoStrings.Contains destPath "drivers" then
              match addDir s destPath w1 with
              | (Fail err, w2) => (Fail err, w2)
              | (Ok _, w2) => (Ok tt, w2)
              end
            else (Ok tt, w1)
          else if negb (Z.land (fi_mode fi) ModeSymlink =? 0) then
            match copyLink path destPath w1 with
            | (Fail err, w2) => (Fail err, w2)
            | (Ok _, w2) => (Ok tt, w2)
            end
          else
            match copyPseudoFile path destPath w1 with
            | (Fail err, w2) =>
                if negb (is_ErrPermission err) then (Fail err, w2)
                else (Ok tt, w2)
            | (Ok _, w2) => (Ok tt, w2)
            end
      end
  end.

(** The inner loop of [copyFileGlobs], over the matches of one pattern. *)
Fixpoint copy_matches (s : snapshotter) (matches : list string) (w : World)
  : result unit * World :=
  match matches with
  | [] => (Ok tt, w)
  | path :: rest =>
      match copyFile s path w with
      | (Fail err, w1) => (Fail err, w1)
      | (Ok _, w1) => copy_matches s rest w1
      end
  end.

Fixpoint copyFileGlobs (s : snapshotter) (globs : list string) (w : World)
  : result unit * World :=
  match globs with
  | [] => (Ok tt, w)
  | glob :: rest =>
      match Glob glob w with
      | Fail err => (Fail err, w)
      | Ok matches =>
          match copy_matches s matches w with
          | (Fail err, w1) => (Fail err, w1)
          | (Ok _, w1) => copyFileGlobs s rest w1
          end
      end
  end.

(** The function [createSnapshot] hands to [filepath.Walk]. *)
Definition snapshot_walkFn (s : snapshotter) (w : World)
    (path : string) (fi : option FileInfo) (_ : option error)
    (tw : TarWriter) : result unit * TarWriter :=
  if String.eqb path (buildPath s) then (Ok tt, tw)
  else
    match fi with
    | None => (Fail (Panic "nil pointer dereference"), tw)
    | Some fi =>
        let link :=
          if negb (Z.land (fi_mode fi) ModeSymlink =? 0)
          then Readlink path w else Ok "" in
        match link with
        | Fail err => (Fail err, tw)
        | Ok link =>
            match FileInfoHeader fi link with
            | Fail err => (Fail err, tw)
            | Ok hdr =>
                let hdr :=
                  set_Name hdr
                    (GoStrings.TrimPrefix
                       (GoStrings.TrimPrefix path (buildPath s))
                       filepath.sep) in
                match WriteHeader w hdr tw with
                | (Fail err, tw1) => (Fail err, tw1)
                | (Ok _, tw1) =>
                    match Typeflag hdr with
                    | TypeReg =>
                        match Open path w with
                        | (Fail err, _) => (Fail err, tw1)
                        | (Ok f, _) =>
                            match File_ReadAll f w with
                            | Fail err => (Fail err, tw1)
                            | Ok data =>
                                match tw_Copy w data tw1 with
                                | (Fail err, tw2) => (Fail err, tw2)
                                | (Ok _, tw2) => (Ok tt, tw2)
                                end
                            end
                        end
                    | _ => (Ok tt, tw1)
                    end
                end
            end
        end
    end.

(** The end of [createSnapshot]: the walk over the build directory, then the
    deferred [tw.Close()] and [gzw.Close()], after which the output file
    holds the stream of the entries written. *)
Definition pack (c : Codec) (s : snapshotter) (f : option File) (w : World)
  : result unit * World :=
  let tw := {| tw_file := f; tw_entries := [] |} in
  let '(r, tw') := Walk (snapshot_walkFn s w) w (buildPath s) tw in
  match f with
  | None => (r, w)
  | Some file =>
      (r, snd (File_Write file (gz_tar c (tw_entries tw')) w))
  end.

Definition createSnapshot (c : Codec) (s : snapshotter) (w : World)
  : result unit * World :=
  match Stat (outPath s) w with
  | Fail err =>
      if is_ErrNotExist err then
        match Create (outPath s) w with
        | (Fail err, w1) => (Fail err, w1)
        | (Ok f, w1) => pack c s (Some f) w1
        end
      else (Fail err, w)
  | Ok _ =>
      (* [f, err := os.OpenFile(...)] declares a new [f] in this block *)
      match OpenFile (outPath s) O_WRONLY 384 w with
      | (Fail err, w1) => (Fail err, w1)
      | (Ok f', w1) =>
          match File_Stat f' w1 with
          | Fail err => (Fail err, w1)
          | Ok fs =>
              if fi_size fs >? 0 then
                (Fail (ErrorString ("file " +:+ outPath s
                                    +:+ " already exists and is of size >0")), w1)
              else pack c s None w1
          end
      end
  end.

(** ** The capture as a whole *)

Fixpoint add_dirs (s : snapshotter) (paths : list string) (w : World)
  : result unit * World :=
  match paths with
  | [] => (Ok tt, w)
  | p :: rest =>
      match addDir s p w with
      | (Fail err, w1) => (Fail err, w1)
      | (Ok _, w1) => add_dirs s rest w1
      end
  end.

Section Capture.
Context {A : Type} (FromString : string -> option A).
(** [createBlockDevices] is defined in a file that is not among the
    sources; it is taken as given. *)
Context (createBlockDevices : snapshotter -> World -> result unit * World).

(** [New].  The result is absent when the bus walk does not end within
    [fuel] turns. *)
Definition New (c : Codec) (fuel : nat) (buildPath outPath : string)
    (w : World) : option (result unit * World) :=
  let snap := new_snapshotter buildPath outPath in
  match add_dirs snap createPaths w with
  | (Fail err, w1) => Some (Fail err, w1)
  | (Ok _, w1) =>
  match createBlockDevices snap w1 with
  | (Fail err, w2) => Some (Fail err, w2)
  | (Ok _, w2) =>
  match copyFileGlobs snap staticGlobs w2 with
  | (Fail err, w3) => Some (Fail err, w3)
  | (Ok _, w3) =>
  match copyFileGlobs snap (netGlobs w3) w3 with
  | (Fail err, w4) => Some (Fail err, w4)
  | (Ok _, w4) =>
  match pciGlobs FromString fuel w4 with
  | None => None
  | Some globs =>
  match copyFileGlobs snap globs w4 with
  | (Fail err, w5) => Some (Fail err, w5)
  | (Ok _, w5) =>
  match copyFileGlobs snap (gpuGlobs w5) w5 with
  | (Fail err, w6) => Some (Fail err, w6)
  | (Ok _, w6) => Some (createSnapshot c snap w6)
  end end end end end end end.

End Capture.

(** ** The expander *)

Definition exists_ (path : string) (w : World) : bool :=
  match Stat path w with
  | Fail err => negb (is_ErrNotExist err)
  | Ok _ => true
  end.

Definition isEmptyDir (name : string) (w : World) : bool :=
  match ReadDir name w with
  | Fail _ => false
  | Ok entries => (length entries =? 0)%nat
  end.

(** One turn of the loop of [untar], for the header [tr.Next()] returned. *)
Definition untar_entry (toPath : string) (e : Entry) (w : World)
  : result unit * World :=
  let '(header, body) := e in
  let target := filepath.Join [toPath; Name header] in
  let mode := Mode header in
  match Typeflag header with
  | TypeDir => MkdirAll target mode w
  | TypeReg =>
      match OpenFile target (Z.lor O_CREATE O_RDWR) mode w with
      | (Fail err, w1) => (Fail err, w1)
      | (Ok dst, w1) =>
          match File_Write dst body w1 with
          | (Fail err, w2) => (Fail err, w2)
          | (Ok _, w2) => (Ok tt, w2)
          end
      end
  | TypeSymlink => Symlink (Linkname header) target w
  | _ => (Ok tt, w)
  end.

Fixpoint untar_loop (toPath : string) (entries : list Entry)
    (tail : option error) (w : World) : result unit * World :=
  match entries with
  | [] =>
      match tail with
      | None => (Ok tt, w)          (* io.EOF: we are done *)
      | Some err => (Fail err, w)   (* bail out *)
      end
  | e :: rest =>
      match untar_entry toPath e w with
      | (Fail err, w1) => (Fail err, w1)
      | (Ok _, w1) => untar_loop toPath rest tail w1
      end
  end.

Definition untar (c : Codec) (r : result bytes) (toPath : string) (w : World)
  : result unit * World :=
  match r with
  | Fail err => (Fail err, w)
  | Ok stream =>
      let '(entries, tail) := un_gz_tar c stream in
      untar_loop toPath entries tail w
  end.

Definition Expand (c : Codec) (fromPath toPath : string) (w : World)
  : result unit * World :=
  let guard :=
    if negb (exists_ toPath w) then MkdirAll toPath ModePerm w
    else if negb (isEmptyDir toPath w) then
      (Fail (ErrorString ("target directory " +:+ toPath +:+ " is not empty")), w)
    else (Ok tt, w) in
  match guard with
  | (Fail err, w1) => (Fail err, w1)
  | (Ok _, w1) =>
      match Open fromPath w1 with
      | (Fail err, w2) => (Fail err, w2)
      | (Ok snap, w2) => untar c (File_ReadAll snap w2) toPath w2
      end
  end.

End snapshot.

(** ** What the specification says the walker and the cloner emit *)

Module Spec.
Import OS snapshot.

(** A world in which the environment makes no call fail. *)
Definition faultless (w : World) : Prop :=
  forall sc p, fault w sc p = None.

(** [w'] is [w] with nodes added: what was there is unchanged. *)
Record extends (w w' : World) : Prop := {
  ext_fs : fs w ⊆ fs w';
  ext_cwd : cwd w' = cwd w;
  ext_umask : umask w' = umask w;
  ext_fault : fault w' = fault w;
  ext_glob : glob_matches w' = glob_matches w
}.

Section Walker.
Context {A : Type} (FromString : string -> option A).

(** The resolved device directory of a listed entry, when its name parses as
    a PCI address and its path resolves. *)
Definition device_dir (root : string) (w : World) (e : DirEntry)
  : option string :=
  match FromString (de_name e) with
  | None => None
  | Some _ =>
      match findPCIEntryFromPath root (de_name e) w with
      | Ok pciEntry => Some pciEntry
      | Fail _ => None
      end
  end.

(** The entry's own path plus one path per attribute of the fixed list under
    the resolved device directory. *)
Definition device_specs (root : string) (w : World) (e : DirEntry)
  : list string :=
  match device_dir root w e with
  | Some pciEntry =>
      filepath.Join [root; de_name e]
      :: List.map (fun attr => filepath.Join [pciEntry; attr])
           ["class"; "device"; "driver"; "irq"; "local_cpulist"; "modalias";
            "numa_node"; "revision"; "vendor"]
  | None => []
  end.

(** A listing shows a bridge when one of its immediate subdirectories has an
    address for a name. *)
Definition shows_bridge (subNodes : list DirEntry) : Prop :=
  exists sub, List.In sub subNodes /\ de_IsDir sub = true
              /\ FromString (de_name sub) <> None.

(** The directories the scan of one bus root hands back as new bus roots. *)
Definition device_roots (root : string) (w : World) (e : DirEntry)
  : list string :=
  match device_dir root w e with
  | Some pciEntry =>
      if isPCIBridge FromString (filepath.Join [root; de_name e]) w
      then [pciEntry] else []
  | None => []
  end.

Definition parses (e : DirEntry) : bool :=
  match FromString (de_name e) with Some _ => true | None => false end.

(** The bus roots of the tree: the canonical root, and every directory a
    scan of a bus root hands back. *)
Inductive bus_root (w : World) : string -> Prop :=
| bus_root_top : bus_root w sysBusPCIDir
| bus_root_bridge (r r' : string) :
    bus_root w r ->
    List.In r' (snd (scanPCIDeviceRoot FromString r w)) ->
    bus_root w r'.

(** A finite, acyclic device tree: the bridges below a bus root have a
    strictly smaller rank than the root. *)
Definition acyclic (w : World) : Prop :=
  exists rank : string -> nat,
    forall r r', bus_root w r ->
      List.In r' (snd (scanPCIDeviceRoot FromString r w)) ->
      (rank r' < rank r)%nat.

(** The address-named device entries of the tree, with the bus root they
    are listed in and the directory they resolve to. *)
Definition device_entry (w : World) (root : string) (e : DirEntry)
    (pciEntry : string) : Prop :=
  bus_root w root /\
  (exists entries, ReadDir root w = Ok entries /\ List.In e entries) /\
  device_dir root w e = Some pciEntry.

(** The bus walk as the specification words it: it terminates, scans no bus
    root twice, and emits each device entry's own path and its [class] path
    exactly once. *)
Definition walk_once (w : World) : Prop :=
  exists fuel fileSpecs scanned,
    pciGlobs_trace FromString fuel w = Some (fileSpecs, scanned)
    /\ List.NoDup scanned
    /\ forall root e pciEntry, device_entry w root e pciEntry ->
         count_occ string_dec fileSpecs (filepath.Join [root; de_name e]) = 1%nat
         /\ count_occ string_dec fileSpecs (filepath.Join [pciEntry; "class"]) = 1%nat.

(** The roots the walk reaches from a queue. *)
Inductive reach (w : World) (queue : list string) : string -> Prop :=
| reach_queue r : List.In r queue -> reach w queue r
| reach_bridge r r' :
    reach w queue r ->
    List.In r' (snd (scanPCIDeviceRoot FromString r w)) ->
    reach w queue r'.

(** The size of the tree below a root, counted to depth [n]. *)
Fixpoint tree_size (w : World) (n : nat) (r : string) : nat :=
  match n with
  | O => 1
  | S n' =>
      S (list_sum (List.map (tree_size w n')
                     (snd (scanPCIDeviceRoot FromString r w))))
  end.

End Walker.

(** The link target of a class-directory entry. *)
Definition link_target (sysClass : string) (w : World) (e : DirEntry) : string :=
  match Readlink (filepath.Join [sysClass; de_name e]) w with
  | Ok dest => dest
  | Fail _ => ""
  end.

(** The entries both filters accept. *)
Definition accepted (sysClass : string) (filterName filterLink : filterFunc)
    (w : World) (entries : list DirEntry) : list DirEntry :=
  List.filter
    (fun e => filterName (de_name e) && filterLink (link_target sysClass w e))
    entries.

(** What is emitted for an accepted entry: the class-entry symlink and one
    path per requested attribute under the backing directory. *)
Definition class_specs (sysClass : string) (subEntries : list string)
    (w : World) (e : DirEntry) : list string :=
  filepath.Join [sysClass; de_name e]
  :: List.map
       (fun subEntry =>
          filepath.Join
            [filepath.Clean (filepath.Join [sysClass; link_target sysClass w e]);
             subEntry])
       subEntries.

End Spec.

(** ** Concrete file systems *)

Module Scenarios.
Import OS snapshot.

Definition loc_of (p : string) : loc :=
  List.filter (fun c => negb (trivial_elem c))
    (GoStrings.split_on filepath.Separator p).

Definition mkfs (l : list (string * Node)) : gmap loc Node :=
  list_to_map (List.map (fun x => (loc_of (fst x), snd x)) l).

(** A world without faults, with the usual creation mask 0o022. *)
Definition mkworld (dir : loc) (l : list (string * Node)) : World :=
  {| fs := mkfs l; cwd := dir; umask := 18; fault := fun _ _ => None;
     glob_matches := fun _ => Ok [] |}.

(** A sysfs tree with a bridge behind a bridge: device [0000:00:01.0] is a
    bridge to bus 01, device [0000:01:00.0] on it is a bridge to bus 02,
    which holds [0000:02:00.0].  As sysfs does, [/sys/bus/pci/devices]
    lists every device as a symbolic link into [/sys/devices]. *)
Definition nested_bridges : World :=
  mkworld []
    [("/sys", NDir 493); ("/sys/bus", NDir 493); ("/sys/bus/pci", NDir 493);
     ("/sys/bus/pci/devices", NDir 493);
     ("/sys/devices", NDir 493); ("/sys/devices/pci0000:00", NDir 493);
     ("/sys/devices/pci0000:00/0000:00:01.0", NDir 493);
     ("/sys/devices/pci0000:00/0000:00:01.0/0000:01:00.0", NDir 493);
     ("/sys/devices/pci0000:00/0000:00:01.0/0000:01:00.0/0000:02:00.0", NDir 493);
     ("/sys/bus/pci/devices/0000:00:01.0",
      NLink "../../../devices/pci0000:00/0000:00:01.0");
     ("/sys/bus/pci/devices/0000:01:00.0",
      NLink "../../../devices/pci0000:00/0000:00:01.0/0000:01:00.0");
     ("/sys/bus/pci/devices/0000:02:00.0",
      NLink "../../../devices/pci0000:00/0000:00:01.0/0000:01:00.0/0000:02:00.0")].

Definition bridge1 : string := "/sys/devices/pci0000:00/0000:00:01.0".
Definition bridge2 : string := "/sys/devices/pci0000:00/0000:00:01.0/0000:01:00.0".

Definition nested_rank (r : string) : nat :=
  if String.eqb r sysBusPCIDir then 3
  else if String.eqb r bridge1 then 2
  else if String.eqb r bridge2 then 1
  else 0.

Definition hello : bytes := list_byte_of_string ("hello" +:+ String "010" "").

(** The staging tree of the specification's scenario, built under
    [/home/snap], beside an empty directory [/home/dest]; the working
    directory is [/home]. *)
Definition staged_nodes : list (string * Node) :=
  [("/home", NDir 493);
   ("/home/snap", NDir 493);
   ("/home/snap/proc", NDir 493);
   ("/home/snap/proc/cpuinfo", NFile 420 hello);
   ("/home/snap/sys", NDir 493);
   ("/home/snap/sys/block", NDir 493);
   ("/home/snap/sys/class", NDir 493);
   ("/home/snap/sys/class/net", NDir 493);
   ("/home/snap/sys/class/net/eth0", NLink "../../devices/virtual/net/eth0");
   ("/home/dest", NDir 493)].

Definition staged : World := mkworld ["home"] staged_nodes.

(** The same, with an empty file already at the output path. *)
Definition staged_empty_out : World :=
  mkworld ["home"] (staged_nodes ++ [("/home/out.tar.gz", NFile 384 [])]).

(** The same, with a non-empty file at the output path. *)
Definition staged_full_out : World :=
  mkworld ["home"] (staged_nodes ++ [("/home/out.tar.gz", NFile 384 hello)]).

Definition dir_header (name : string) : Header :=
  {| Typeflag := TypeDir; Name := name; Linkname := ""; Size := 0; Mode := 493 |}.

Definition reg_header (name : string) (size mode : Z) : Header :=
  {| Typeflag := TypeReg; Name := name; Linkname := ""; Size := size; Mode := mode |}.

Definition link_header (name target : string) : Header :=
  {| Typeflag := TypeSymlink; Name := name; Linkname := target; Size := 0;
     Mode := 511 |}.

(** The entries of the scenario's tree, named from a prefix. *)
Definition scenario_entries (prefix : string) : list Entry :=
  [(dir_header (prefix +:+ "proc"), []);
   (reg_header (prefix +:+ "proc/cpuinfo") 6 420, hello);
   (dir_header (prefix +:+ "sys"), []);
   (dir_header (prefix +:+ "sys/block"), []);
   (dir_header (prefix +:+ "sys/class"), []);
   (dir_header (prefix +:+ "sys/class/net"), []);
   (link_header (prefix +:+ "sys/class/net/eth0") "../../devices/virtual/net/eth0", [])].

(** An archive with two regular entries of the same name. *)
Definition duplicate_entries : list Entry :=
  [(reg_header "motd" 6 420, hello);
   (reg_header "motd" 2 384, list_byte_of_string "hi")].

(** A live tree with a network interface link, a file that may not be
    opened and a file whose read fails with an I/O error, beside an empty
    build directory [/tmp/snap]. *)
Definition live : World :=
  {| fs := mkfs
       [("/tmp", NDir 511); ("/tmp/snap", NDir 448);
        ("/sys", NDir 365); ("/sys/class", NDir 493); ("/sys/class/net", NDir 493);
        ("/sys/class/net/eth0",
         NLink "../../devices/pci0000:00/0000:00:19.0/net/eth0");
        ("/sys/class/net/lo", NLink "../../devices/virtual/net/lo");
        ("/sys/firmware", NDir 493);
        ("/sys/firmware/secret", NFile 256 hello);
        ("/sys/firmware/broken", NFile 292 hello);
        ("/sys/firmware/plain", NFile 292 hello)];
     cwd := []; umask := 18;
     fault := fun sc p =>
       match sc with
       | SysOpen => if String.eqb p "/sys/firmware/secret" then Some EACCES else None
       | SysRead => if String.eqb p "/sys/firmware/broken" then Some EIO else None
       | _ => None
       end;
     glob_matches := fun _ => Ok [] |}.

Definition live_faultless : World :=
  {| fs := fs live; cwd := []; umask := 18; fault := fun _ _ => None;
     glob_matches := fun _ => Ok [] |}.

Definition tmp_snapshotter : snapshotter := new_snapshotter "/tmp/snap" "/tmp/out.tar.gz".

Definition info_or_zero (r : result FileInfo) : FileInfo :=
  match r with
  | Ok fi => fi
  | Fail _ => {| fi_name := ""; fi_size := 0; fi_mode := 0 |}
  end.

End Scenarios.

(** * Properties *)

Module Facts.
Import OS snapshot Spec.

(** ** The path functions on examples *)

Example clean_dotdot :
  filepath.Clean "/sys/bus/pci/devices/../../../devices/pci0000:00/0000:00:1c.0"
  = "/sys/devices/pci0000:00/0000:00:1c.0".
Proof. reflexivity. Qed.

Example clean_relative : filepath.Clean "./snap/proc" = "snap/proc".
Proof. reflexivity. Qed.

Example clean_empty : filepath.Clean "" = ".".
Proof. reflexivity. Qed.

Example clean_root_dotdot : filepath.Clean "/../a//b/./" = "/a/b".
Proof. reflexivity. Qed.

Example clean_rel_dotdot : filepath.Clean "../../a/.." = "../..".
Proof. reflexivity. Qed.

Example join_skips_empty : filepath.Join [""; "/sys/block"] = "/sys/block".
Proof. reflexivity. Qed.

Example join_build :
  filepath.Join ["/tmp/snap"; "/proc/cpuinfo"] = "/tmp/snap/proc/cpuinfo".
Proof. reflexivity. Qed.

Example dir_file : filepath.Dir "/proc/cpuinfo" = "/proc".
Proof. reflexivity. Qed.

Example dir_top : filepath.Dir "/cpuinfo" = "/".
Proof. reflexivity. Qed.

Example dir_plain : filepath.Dir "cpuinfo" = ".".
Proof. reflexivity. Qed.

Example trim_suffix : GoStrings.TrimSuffix "/tmp/snap/" "/" = "/tmp/snap".
Proof. reflexivity. Qed.

Example trim_prefix_mismatch :
  GoStrings.TrimPrefix "snap/proc" "./snap" = "snap/proc".
Proof. reflexivity. Qed.

Example contains_virtual :
  GoStrings.Contains "../../devices/virtual/net/lo" "devices/virtual/net" = true.
Proof. reflexivity. Qed.

Example mkdir_parent_nested : mkdir_parent "/tmp/snap/proc" = "/tmp/snap".
Proof. reflexivity. Qed.

Example mkdir_parent_top : mkdir_parent "/tmp" = "".
Proof. reflexivity. Qed.

Example address_parses :
  pciaddr.FromString "0000:00:1c.0"
  = Some {| pciaddr.Domain := "0000"; pciaddr.Bus := "00";
            pciaddr.Device := "1c"; pciaddr.Function := "0" |}.
Proof. reflexivity. Qed.

Example address_rejects_name : pciaddr.FromString "drivers_probe" = None.
Proof. reflexivity. Qed.

Example address_rejects_trailing : pciaddr.FromString "0000:00:1c.0x" = None.
Proof. reflexivity. Qed.

Example address_rejects_short_domain : pciaddr.FromString "00:1c.0" = None.
Proof. reflexivity. Qed.

Lemma fold_left_snoc {X Y : Type} (f : X -> Y) (l : list X) (acc : list Y) :
  List.fold_left (fun specs x => specs ++ [f x]) l acc = acc ++ List.map f l.
Proof.
  revert acc. induction l as [|x l IH]; intros acc; simpl.
  - now rewrite app_nil_r.
  - rewrite IH. now rewrite <- app_assoc.
Qed.

Section Walker.
Context {A : Type} (FromString : string -> option A).

Lemma scan_entry_spec root w acc e :
  scan_entry FromString root w acc e
  = (fst acc ++ device_specs FromString root w e,
     snd acc ++ device_roots FromString root w e).
Proof.
  destruct acc as [specs roots].
  unfold scan_entry, device_specs, device_roots, device_dir.
  cbn [fst snd]. destruct (FromString (de_name e)) as [a|].
  - destruct (findPCIEntryFromPath root (de_name e) w) as [pciEntry|err].
    + rewrite fold_left_snoc. unfold perDevEntries.
      destruct (isPCIBridge FromString (filepath.Join [root; de_name e]) w).
      * now rewrite <- app_assoc.
      * now rewrite <- app_assoc, (app_nil_r roots).
    + now rewrite !app_nil_r.
  - now rewrite !app_nil_r.
Qed.

Lemma scan_fold_spec root w entries acc :
  List.fold_left (scan_entry FromString root w) entries acc
  = (fst acc ++ List.flat_map (device_specs FromString root w) entries,
     snd acc ++ List.flat_map (device_roots FromString root w) entries).
Proof.
  revert acc. induction entries as [|e entries IH]; intros acc; simpl.
  - rewrite !app_nil_r. now destruct acc.
  - rewrite IH, scan_entry_spec. simpl. now rewrite <- !app_assoc.
Qed.

Lemma scan_specs root w :
  fst (scanPCIDeviceRoot FromString root w)
  = match ReadDir root w with
    | Ok entries => List.flat_map (device_specs FromString root w) entries
    | Fail _ => []
    end.
Proof.
  unfold scanPCIDeviceRoot. destruct (ReadDir root w); [|reflexivity].
  now rewrite scan_fold_spec.
Qed.

Lemma scan_roots root w :
  snd (scanPCIDeviceRoot FromString root w)
  = match ReadDir root w with
    | Ok entries => List.flat_map (device_roots FromString root w) entries
    | Fail _ => []
    end.
Proof.
  unfold scanPCIDeviceRoot. destruct (ReadDir root w); [|reflexivity].
  now rewrite scan_fold_spec.
Qed.

Lemma flat_map_filter_nil {X Y : Type} (f : X -> list Y) (p : X -> bool)
    (l : list X) :
  (forall x, p x = false -> f x = []) ->
  List.flat_map f (List.filter p l) = List.flat_map f l.
Proof.
  intros H. induction l as [|x l IH]; simpl; [reflexivity|].
  destruct (p x) eqn:E; simpl.
  - now rewrite IH.
  - now rewrite (H x E), IH.
Qed.

Lemma bridge_scan_spec subNodes :
  bridge_scan FromString subNodes = true <-> shows_bridge FromString subNodes.
Proof.
  unfold shows_bridge. induction subNodes as [|s l IH]; simpl.
  - split; [discriminate|]. intros (sub & [] & _).
  - destruct (de_IsDir s) eqn:Hd; simpl.
    + destruct (FromString (de_name s)) eqn:Hp.
      * split; [|reflexivity]. intros _. exists s. repeat split; auto.
        rewrite Hp. discriminate.
      * rewrite IH. split.
        -- intros (sub & Hin & H1 & H2). exists sub. auto.
        -- intros (sub & [->|Hin] & H1 & H2); [congruence|]. exists sub. auto.
    + rewrite IH. split.
      * intros (sub & Hin & H1 & H2). exists sub. auto.
      * intros (sub & [->|Hin] & H1 & H2); [congruence|]. exists sub. auto.
Qed.



End Walker.

Lemma clone_entry_spec sysClass subEntries filterName filterLink w specs e :
  (exists dest, Readlink (filepath.Join [sysClass; de_name e]) w = Ok dest) ->
  clone_entry sysClass subEntries filterName filterLink w specs e
  = specs ++
    (if filterName (de_name e) && filterLink (link_target sysClass w e)
     then class_specs sysClass subEntries w e else []).
Proof.
  intros [dest Hd]. unfold clone_entry, class_specs, link_target. rewrite Hd.
  destruct (filterName (de_name e)); simpl; [|now rewrite app_nil_r].
  destruct (filterLink dest); simpl; [|now rewrite app_nil_r].
  rewrite fold_left_snoc. now rewrite <- app_assoc.
Qed.

Lemma clone_fold_spec sysClass subEntries filterName filterLink w entries specs :
  (forall e, List.In e entries ->
     exists dest, Readlink (filepath.Join [sysClass; de_name e]) w = Ok dest) ->
  List.fold_left (clone_entry sysClass subEntries filterName filterLink w)
    entries specs
  = specs ++ List.flat_map (class_specs sysClass subEntries w)
               (accepted sysClass filterName filterLink w entries).
Proof.
  revert specs. induction entries as [|e entries IH]; intros specs Hall; simpl.
  - now rewrite app_nil_r.
  - rewrite clone_entry_spec by (apply Hall; now left).
    rewrite IH by (intros e' He'; apply Hall; now right).
    destruct (filterName (de_name e) && filterLink (link_target sysClass w e));
      simpl; now rewrite <- ?app_assoc, ?app_nil_r.
Qed.

(** C7.  In a device-class directory whose entries are all symbolic links
    with a readable target, [cloneContentByClass] emits the specs of exactly
    the entries for which the name filter holds of the entry name and the
    link filter holds of the link target; with the accept-all name filter
    and a link filter that rejects the targets containing a marker, those
    are the listed entries minus the ones whose target contains the marker,
    which is how [netGlobs] is configured. *)
Theorem filters_compose (devClass : string) (subEntries : list string)
    (filterName filterLink : filterFunc) (w : World) (entries : list DirEntry)
    (Hlist : ReadDir (filepath.Join ["sys"; "class"; devClass]) w = Ok entries)
    (Hlinks : forall e, List.In e entries ->
       exists dest,
         Readlink (filepath.Join [filepath.Join ["sys"; "class"; devClass];
                                  de_name e]) w = Ok dest) :
  let sysClass := filepath.Join ["sys"; "class"; devClass] in
  cloneContentByClass devClass subEntries filterName filterLink w
  = List.flat_map (class_specs sysClass subEntries w)
      (accepted sysClass filterName filterLink w entries)
  /\ (forall e, List.In e (accepted sysClass filterName filterLink w entries) <->
        List.In e entries /\ filterName (de_name e) = true
        /\ filterLink (link_target sysClass w e) = true)
  /\ (forall marker,
        cloneContentByClass devClass subEntries filterNone
          (fun linkDest => negb (GoStrings.Contains linkDest marker)) w
        = List.flat_map (class_specs sysClass subEntries w)
            (List.filter
               (fun e => negb (GoStrings.Contains (link_target sysClass w e) marker))
               entries))
  /\ (devClass = "net" ->
      netGlobs w
      = List.flat_map (class_specs sysClass ["addr_assign_type"] w)
          (List.filter
             (fun e => negb (GoStrings.Contains (link_target sysClass w e)
                               "devices/virtual/net"))
             entries)).
Proof.
  intros sysClass.
  assert (Hgen : forall subs fn fl,
             cloneContentByClass devClass subs fn fl w
             = List.flat_map (class_specs sysClass subs w)
                 (accepted sysClass fn fl w entries)).
  { intros subs fn fl. unfold cloneContentByClass. fold sysClass.
    unfold sysClass at 1. rewrite Hlist.
    now rewrite clone_fold_spec by exact Hlinks. }
  repeat split.
  - apply Hgen.
  - apply filter_In in H. tauto.
  - apply filter_In in H as [_ H]. apply andb_prop in H. tauto.
  - apply filter_In in H as [_ H]. apply andb_prop in H. tauto.
  - intros (H1 & H2 & H3). apply filter_In. split; [exact H1|].
    now rewrite H2, H3.
  - intros marker. rewrite Hgen. reflexivity.
  - intros ->. unfold netGlobs. rewrite Hgen. reflexivity.
Qed.

Section BusWalk.
Context {A : Type} (FromString : string -> option A).
Context (w : World).

Local Abbreviation roots_of r := (snd (scanPCIDeviceRoot FromString r w)).
Local Abbreviation specs_of := (fun r => fst (scanPCIDeviceRoot FromString r w)).
Local Abbreviation loop := (pciGlobs_loop FromString).
Local Abbreviation reach := (Spec.reach FromString w).
Local Abbreviation tree_size := (Spec.tree_size FromString w).

Lemma reach_step r0 queue r :
  reach (r0 :: queue) r <-> r = r0 \/ reach (queue ++ roots_of r0) r.
Proof.
  split.
  - induction 1 as [r [->|Hin]|r r' _ IH Hin].
    + now left.
    + right. apply reach_queue, in_or_app. now left.
    + right. destruct IH as [->|IH].
      * apply reach_queue, in_or_app. now right.
      * eapply reach_bridge; eauto.
  - intros [->|H].
    + apply reach_queue. now left.
    + induction H as [r Hin|r r' _ IH Hin].
      * apply in_app_or in Hin as [Hin|Hin].
        -- apply reach_queue. now right.
        -- eapply reach_bridge; [|exact Hin]. apply reach_queue. now left.
      * eapply reach_bridge; eauto.
Qed.

Lemma reach_top_bus_root r :
  reach [sysBusPCIDir] r <-> bus_root FromString w r.
Proof.
  split.
  - induction 1 as [r [<-|[]]|r r' _ IH Hin].
    + constructor.
    + econstructor; eauto.
  - induction 1 as [|r r' _ IH Hin].
    + apply reach_queue. now left.
    + eapply reach_bridge; eauto.
Qed.

Lemma loop_more_fuel fuel fuel' queue fileSpecs scanned res :
  loop fuel w queue fileSpecs scanned = Some res ->
  (fuel <= fuel')%nat ->
  loop fuel' w queue fileSpecs scanned = Some res.
Proof.
  revert fuel' queue fileSpecs scanned.
  induction fuel as [|fuel IH]; intros fuel' queue fileSpecs scanned H Hle;
    [discriminate|].
  destruct fuel' as [|fuel']; [lia|].
  simpl in *. destruct queue as [|r queue]; [exact H|].
  destruct (scanPCIDeviceRoot FromString r w) as [specs roots].
  apply IH; [exact H|lia].
Qed.

Lemma loop_deterministic fuel fuel' queue fileSpecs scanned res res' :
  loop fuel w queue fileSpecs scanned = Some res ->
  loop fuel' w queue fileSpecs scanned = Some res' ->
  res = res'.
Proof.
  intros H H'. destruct (Nat.le_ge_cases fuel fuel') as [Hle|Hle].
  - eapply loop_more_fuel in H; [|exact Hle]. congruence.
  - eapply loop_more_fuel in H'; [|exact Hle]. congruence.
Qed.

Lemma trace_deterministic fuel fuel' res res' :
  pciGlobs_trace FromString fuel w = Some res ->
  pciGlobs_trace FromString fuel' w = Some res' ->
  res = res'.
Proof. apply loop_deterministic. Qed.

(** What the loop returns: the roots scanned are appended to [scanned] in
    the order they leave the queue, the file specs are those of the scans
    in that order, and the roots scanned are the roots reached. *)
Lemma loop_result fuel queue fileSpecs scanned res trace :
  loop fuel w queue fileSpecs scanned = Some (res, trace) ->
  exists visited,
    trace = scanned ++ visited
    /\ res = fileSpecs ++ List.flat_map specs_of visited
    /\ (forall r, List.In r visited <-> reach queue r).
Proof.
  revert queue fileSpecs scanned.
  induction fuel as [|fuel IH]; intros queue fileSpecs scanned H; [discriminate|].
  simpl in H. destruct queue as [|r0 queue].
  - injection H as <- <-. exists []. simpl. rewrite !app_nil_r.
    repeat split; try tauto.
    intros Hr. induction Hr as [r []|r r' _ IH' _]; exact IH'.
  - destruct (scanPCIDeviceRoot FromString r0 w) as [specs roots] eqn:Hscan.
    apply IH in H as (visited & -> & -> & Hreach).
    exists (r0 :: visited). simpl. rewrite Hscan. simpl.
    rewrite <- !app_assoc. repeat split; try reflexivity.
    + intros [<-|Hin]; apply reach_step; rewrite Hscan; simpl.
      * now left.
      * right. now apply Hreach.
    + intros Hr. apply reach_step in Hr. rewrite Hscan in Hr. simpl in Hr.
      destruct Hr as [->|Hr]; [now left|right; now apply Hreach].
Qed.

Lemma list_sum_map_le {X : Type} (f g : X -> nat) (l : list X) :
  (forall x, f x <= g x)%nat ->
  (list_sum (List.map f l) <= list_sum (List.map g l))%nat.
Proof.
  intros H. induction l as [|x l IH]; simpl; [lia|]. specialize (H x). lia.
Qed.

Lemma tree_size_step n r : (tree_size n r <= tree_size (S n) r)%nat.
Proof.
  revert r. induction n as [|n IH]; intros r.
  - simpl. lia.
  - change (S (list_sum (List.map (tree_size n) (roots_of r)))
            <= S (list_sum (List.map (tree_size (S n)) (roots_of r))))%nat.
    apply le_n_S, list_sum_map_le, IH.
Qed.

Lemma tree_size_mono n m r : (n <= m)%nat -> (tree_size n r <= tree_size m r)%nat.
Proof.
  induction 1 as [|m _ IH]; [lia|]. pose proof (tree_size_step m r). lia.
Qed.

Section Ranked.
Context (rank : string -> nat).
Context (Hrank : forall r r', bus_root FromString w r ->
           List.In r' (roots_of r) -> (rank r' < rank r)%nat).

Local Abbreviation weight := (fun r => tree_size (rank r) r).

Lemma weight_children r :
  bus_root FromString w r ->
  (S (list_sum (List.map weight (roots_of r))) <= weight r)%nat.
Proof.
  intros Hr. cbv beta. destruct (rank r) as [|n] eqn:Hn.
  - destruct (roots_of r) as [|c l] eqn:Hc; [simpl; lia|].
    specialize (Hrank r c Hr). rewrite Hc in Hrank.
    specialize (Hrank (or_introl eq_refl)). lia.
  - change (S (list_sum (List.map weight (roots_of r)))
            <= S (list_sum (List.map (tree_size n) (roots_of r))))%nat.
    apply le_n_S. clear -Hrank Hr Hn.
    assert (H : forall c, List.In c (roots_of r) -> (weight c <= tree_size n c)%nat).
    { intros c Hc. apply tree_size_mono. specialize (Hrank r c Hr Hc). lia. }
    induction (roots_of r) as [|c l IH]; simpl; [lia|].
    pose proof (H c (or_introl eq_refl)).
    assert (list_sum (List.map weight l) <= list_sum (List.map (tree_size n) l))%nat.
    { apply IH. intros c' Hc'. apply H. now right. }
    lia.
Qed.

Lemma loop_terminates fuel queue fileSpecs scanned :
  (forall r, List.In r queue -> bus_root FromString w r) ->
  (list_sum (List.map weight queue) < fuel)%nat ->
  exists res, loop fuel w queue fileSpecs scanned = Some res.
Proof.
  revert queue fileSpecs scanned.
  induction fuel as [|fuel IH]; intros queue fileSpecs scanned Hq Hlt; [lia|].
  simpl. destruct queue as [|r queue]; [eauto|].
  destruct (scanPCIDeviceRoot FromString r w) as [specs roots] eqn:Hscan.
  apply IH.
  - intros r' Hin. apply in_app_or in Hin as [Hin|Hin].
    + apply Hq. now right.
    + eapply bus_root_bridge; [apply Hq; now left|]. now rewrite Hscan.
  - pose proof (weight_children r (Hq r (or_introl eq_refl))) as Hw.
    rewrite Hscan in Hw. simpl in Hw, Hlt.
    rewrite List.map_app, list_sum_app. lia.
Qed.

End Ranked.

End BusWalk.

Section BusWalkResult.
Context {A : Type} (FromString : string -> option A).


End BusWalkResult.

Lemma nested_roots :
  snd (scanPCIDeviceRoot pciaddr.FromString sysBusPCIDir Scenarios.nested_bridges)
  = [Scenarios.bridge1; Scenarios.bridge2]
  /\ snd (scanPCIDeviceRoot pciaddr.FromString Scenarios.bridge1
            Scenarios.nested_bridges)
     = [Scenarios.bridge2]
  /\ snd (scanPCIDeviceRoot pciaddr.FromString Scenarios.bridge2
            Scenarios.nested_bridges)
     = [].
Proof. vm_compute. repeat split. Qed.

Lemma nested_bus_roots r :
  bus_root pciaddr.FromString Scenarios.nested_bridges r ->
  List.In r [sysBusPCIDir; Scenarios.bridge1; Scenarios.bridge2].
Proof.
  destruct nested_roots as (H0 & H1 & H2).
  induction 1 as [|r r' _ IH Hin]; [now left|].
  destruct IH as [<-|[<-|[<-|[]]]].
  - rewrite H0 in Hin. clear H0 H1 H2. simpl in Hin |- *. tauto.
  - rewrite H1 in Hin. clear H0 H1 H2. simpl in Hin |- *. tauto.
  - rewrite H2 in Hin. destruct Hin.
Qed.

Lemma nested_trace :
  option_map snd (pciGlobs_trace pciaddr.FromString 5 Scenarios.nested_bridges)
  = Some [sysBusPCIDir; Scenarios.bridge1; Scenarios.bridge2; Scenarios.bridge2].
Proof. vm_compute. reflexivity. Qed.

Lemma nested_acyclic : acyclic pciaddr.FromString Scenarios.nested_bridges.
Proof.
  destruct nested_roots as (H0 & H1 & H2).
  exists Scenarios.nested_rank. intros r r' Hr Hin.
  apply nested_bus_roots in Hr.
  destruct Hr as [<-|[<-|[<-|[]]]].
  - rewrite H0 in Hin. clear H0 H1 H2.
    destruct Hin as [<-|[<-|[]]]; vm_compute; lia.
  - rewrite H1 in Hin. clear H0 H1 H2.
    destruct Hin as [<-|[]]; vm_compute; lia.
  - rewrite H2 in Hin. destruct Hin.
Qed.



(** ** The file interface: calls that only add nodes keep what was there *)

Lemma namei_unfold h m follow cur elems :
  namei h m follow cur elems
  = match elems with
    | [] => inr cur
    | c :: rest =>
        if trivial_elem c then namei h m follow cur rest
        else if String.eqb c ".." then namei h m follow (removelast cur) rest
        else
          match node_at m (cur ++ [c]) with
          | None =>
              match rest with
              | [] => inr (cur ++ [c])
              | _ => inl ENOENT
              end
          | Some (NDir _) => namei h m follow (cur ++ [c]) rest
          | Some (NFile _ _) =>
              match rest with
              | [] => inr (cur ++ [c])
              | _ => inl ENOTDIR
              end
          | Some (NLink t) =>
              match rest, follow with
              | [], false => inr (cur ++ [c])
              | _, _ =>
                  match h with
                  | O => inl ELOOP
                  | S h' =>
                      namei h' m follow
                        (if filepath.rooted t then [] else cur)
                        (GoStrings.split_on filepath.Separator t ++ rest)
                  end
              end
          end
    end.
Proof. destruct h, elems; reflexivity. Qed.

Lemma node_at_weaken (m m' : gmap loc Node) l n :
  m ⊆ m' -> node_at m l = Some n -> node_at m' l = Some n.
Proof.
  intros Hsub. destruct l as [|c l]; simpl; [auto|].
  intros H. eapply lookup_weaken; eauto.
Qed.

Lemma namei_mono (m m' : gmap loc Node) follow :
  m ⊆ m' ->
  forall h cur elems l n,
    namei h m follow cur elems = inr l ->
    node_at m l = Some n ->
    namei h m' follow cur elems = inr l.
Proof.
  intros Hsub. induction h as [|h IHh]; intros cur elems; revert cur;
    induction elems as [|c rest IH]; intros cur l n;
    rewrite !(namei_unfold _ _ _ _ (_ :: _)) || rewrite !(namei_unfold _ _ _ _ []);
    try (intros [= <-] _; reflexivity).
  all: destruct (trivial_elem c); [apply IH|].
  all: destruct (String.eqb c ".."); [apply IH|].
  all: destruct (node_at m (cur ++ [c])) as [x|] eqn:Hx.
  all: try (rewrite (node_at_weaken _ _ _ _ Hsub Hx)).
  all: try (destruct rest; [intros [= <-] Hl; congruence|discriminate]).
  all: destruct x as [pm d|pm|t]; try apply IH.
  all: try (destruct rest; [intros [= <-] _; reflexivity|discriminate]).
  all: destruct rest, follow; try discriminate; try (intros [= <-] _; reflexivity).
  all: try apply IHh.
Qed.

Lemma extends_refl w : extends w w.
Proof. now split. Qed.

Lemma extends_trans w1 w2 w3 : extends w1 w2 -> extends w2 w3 -> extends w1 w3.
Proof.
  intros [] []. split; try congruence. etransitivity; eauto.
Qed.

Lemma node_absent (m : gmap loc Node) l :
  node_at m l = None -> m !! l = None.
Proof. destruct l; [discriminate|auto]. Qed.

Lemma set_fs_extends w l n :
  node_at (fs w) l = None -> extends w (set_fs w (<[l := n]> (fs w))).
Proof.
  intros H. split; try reflexivity. simpl.
  apply insert_subseteq, node_absent, H.
Qed.

Lemma resolve_mono w w' follow p l n :
  extends w w' ->
  resolve w follow p = inr l -> node_at (fs w) l = Some n ->
  resolve w' follow p = inr l.
Proof.
  intros [Hfs Hcwd _ _ _]. unfold resolve. rewrite Hcwd.
  destruct (String.eqb p ""); [discriminate|].
  intros H Hn. eapply namei_mono; eauto.
Qed.

Lemma stat_with_mono sc op follow p w w' fi :
  extends w w' ->
  stat_with sc op follow p w = Ok fi -> stat_with sc op follow p w' = Ok fi.
Proof.
  intros Hext. pose proof Hext as [Hfs Hcwd _ Hfault _].
  unfold stat_with. rewrite Hfault.
  destruct (fault w sc p); [discriminate|].
  destruct (resolve w follow p) as [en|l] eqn:Hr; [discriminate|].
  destruct (node_at (fs w) l) as [n|] eqn:Hn; [|discriminate].
  rewrite (resolve_mono _ _ _ _ _ _ Hext Hr Hn).
  now rewrite (node_at_weaken _ _ _ _ Hfs Hn).
Qed.

Lemma Readlink_mono p w w' t :
  extends w w' -> Readlink p w = Ok t -> Readlink p w' = Ok t.
Proof.
  intros Hext. pose proof Hext as [Hfs Hcwd _ Hfault _].
  unfold Readlink. rewrite Hfault.
  destruct (fault w SysReadlink p); [discriminate|].
  destruct (resolve w false p) as [en|l] eqn:Hr; [discriminate|].
  destruct (node_at (fs w) l) as [n|] eqn:Hn; [|discriminate].
  rewrite (resolve_mono _ _ _ _ _ _ Hext Hr Hn).
  now rewrite (node_at_weaken _ _ _ _ Hfs Hn).
Qed.

Lemma Mkdir_extends p perm w r w' :
  Mkdir p perm w = (r, w') -> extends w w'.
Proof.
  unfold Mkdir. destruct (fault w SysMkdir p).
  { intros [= _ <-]. apply extends_refl. }
  destruct (resolve_new w p) as [en|l].
  { intros [= _ <-]. apply extends_refl. }
  destruct (node_at (fs w) l) eqn:Hn; intros [= _ <-].
  - apply extends_refl.
  - now apply set_fs_extends.
Qed.

Lemma Symlink_extends t p w r w' :
  Symlink t p w = (r, w') -> extends w w'.
Proof.
  unfold Symlink. destruct (fault w SysSymlink p).
  { intros [= _ <-]. apply extends_refl. }
  destruct (resolve w false p) as [en|l].
  { intros [= _ <-]. apply extends_refl. }
  destruct (node_at (fs w) l) eqn:Hn; intros [= _ <-].
  - apply extends_refl.
  - now apply set_fs_extends.
Qed.

Lemma MkdirAll_rec_extends fuel p perm w r w' :
  MkdirAll_rec fuel p perm w = (r, w') -> extends w w'.
Proof.
  revert p w r w'. induction fuel as [|fuel IH]; intros p w r w'; simpl.
  { intros [= _ <-]. apply extends_refl. }
  destruct (Stat p w) as [dir|err].
  { destruct (IsDir dir); intros [= _ <-]; apply extends_refl. }
  destruct (String.eqb (mkdir_parent p) "") eqn:Hp.
  - destruct (Mkdir p perm w) as [[[]|err'] w2] eqn:Hmk.
    + intros [= _ <-]. eapply Mkdir_extends; eauto.
    + apply Mkdir_extends in Hmk.
      destruct (Lstat p w2) as [dir|e2]; [destruct (IsDir dir)|];
        intros [= _ <-]; exact Hmk.
  - destruct (MkdirAll_rec fuel (mkdir_parent p) perm w) as [[[]|e1] w1] eqn:Hrec.
    + apply IH in Hrec.
      destruct (Mkdir p perm w1) as [[[]|err'] w2] eqn:Hmk.
      * intros [= _ <-]. eapply extends_trans; [exact Hrec|].
        eapply Mkdir_extends; eauto.
      * apply Mkdir_extends in Hmk.
        destruct (Lstat p w2) as [dir|e2]; [destruct (IsDir dir)|];
          intros [= _ <-]; eapply extends_trans; eauto.
    + apply IH in Hrec. intros [= _ <-]. exact Hrec.
Qed.

Lemma namei_final_not_link (m : gmap loc Node) :
  forall h cur elems l,
    namei h m false cur elems = inr l ->
    (forall t, node_at m l <> Some (NLink t)) ->
    namei h m true cur elems = inr l.
Proof.
  induction h as [|h IHh]; intros cur elems; revert cur;
    induction elems as [|c rest IH]; intros cur l;
    rewrite !(namei_unfold _ _ _ _ (_ :: _)) || rewrite !(namei_unfold _ _ _ _ []);
    try (intros [= <-] _; reflexivity).
  all: destruct (trivial_elem c); [apply IH|].
  all: destruct (String.eqb c ".."); [apply IH|].
  all: destruct (node_at m (cur ++ [c])) as [[pm d|pm|t]|] eqn:Hx; try apply IH;
    try (intros H _; exact H).
  all: destruct rest; try discriminate; try apply IHh.
  all: intros [= <-] Hl; exfalso; eapply Hl; eauto.
Qed.

Lemma namei_trivial h m follow cur trailing :
  Forall (fun c => trivial_elem c = true) trailing ->
  namei h m follow cur trailing = inr cur.
Proof.
  induction 1 as [|c rest Hc _ IH]; rewrite namei_unfold; [reflexivity|].
  now rewrite Hc.
Qed.

(** Resolution after the node resolved to has been created. *)
Lemma namei_created (m : gmap loc Node) (l : loc) (n' : Node) follow trailing :
  node_at m l = None ->
  Forall (fun c => trivial_elem c = true) trailing ->
  ((exists pm, n' = NDir pm)
   \/ (trailing = [] /\ follow = false /\ exists t, n' = NLink t)) ->
  forall h cur elems,
    namei h m false cur elems = inr l ->
    namei h (<[l := n']> m) follow cur (elems ++ trailing) = inr l.
Proof.
  intros Hl Htr Hn'.
  assert (Hl' : l <> []) by (intros ->; discriminate).
  assert (Hnew : node_at (<[l := n']> m) l = Some n').
  { destruct l; [congruence|]. simpl. apply lookup_insert_eq. }
  assert (Hold : forall k x, node_at m k = Some x ->
                   node_at (<[l := n']> m) k = Some x).
  { intros k x Hk. destruct k as [|c k]; [exact Hk|]. simpl in *.
    rewrite lookup_insert_ne; [exact Hk|]. intros ->.
    apply node_absent in Hl. congruence. }
  induction h as [|h IHh]; intros cur elems; revert cur;
    induction elems as [|c rest IH]; intros cur; simpl app.
  1,3: rewrite (namei_unfold _ _ _ _ []); intros [= <-];
       now apply namei_trivial.
  all: rewrite !(namei_unfold _ _ _ _ (c :: _)).
  all: destruct (trivial_elem c); [apply IH|].
  all: destruct (String.eqb c ".."); [apply IH|].
  all: destruct (node_at m (cur ++ [c])) as [x|] eqn:Hx.
  all: try rewrite (Hold _ _ Hx).
  all: try (destruct rest; [|discriminate]; intros [= <-]; rewrite Hnew;
            simpl app;
            destruct Hn' as [[pm ->]|(-> & -> & t & ->)];
            [now apply namei_trivial|reflexivity]).
  all: destruct x as [pm d|pm|t]; try apply IH.
  all: try (destruct rest; [intros [= <-]; congruence|discriminate]).
  all: destruct rest as [|c' rest']; try (intros [= <-]; congruence);
    try discriminate.
  all: simpl app; destruct follow.
  all: try (rewrite app_assoc; apply IHh).
  all: rewrite (app_assoc _ (c' :: rest') trailing); apply IHh.
Qed.

Lemma drop_empty_front_spec l :
  exists k, l = List.repeat "" k ++ drop_empty_front l.
Proof.
  induction l as [|c l [k IH]]; [exists 0%nat; reflexivity|]. simpl.
  destruct (String.eqb_spec c "") as [->|Hc].
  - exists (S k). simpl. now rewrite <- IH.
  - exists 0%nat. reflexivity.
Qed.

Lemma split_trailing p :
  exists trailing,
    GoStrings.split_on filepath.Separator p = elems_no_trailing p ++ trailing
    /\ Forall (fun c => trivial_elem c = true) trailing.
Proof.
  unfold elems_no_trailing.
  destruct (drop_empty_front_spec
              (List.rev (GoStrings.split_on filepath.Separator p))) as [k Hk].
  exists (List.repeat "" k). split.
  - rewrite <- (rev_involutive (GoStrings.split_on filepath.Separator p)) at 1.
    rewrite Hk at 1. rewrite rev_app_distr.
    f_equal. clear. induction k as [|k IH]; [reflexivity|].
    simpl. rewrite IH. clear. induction k; simpl; [reflexivity|]. now f_equal.
  - clear. induction k; simpl; constructor; auto.
Qed.

Lemma IsDir_info name pm : IsDir (info_of name (NDir pm)) = true.
Proof.
  unfold IsDir, info_of, mode_IsDir, node_mode. simpl fi_mode.
  rewrite Z.land_lor_distr_l.
  replace (Z.land ModeDir ModeDir) with ModeDir by (now rewrite Z.land_diag).
  destruct (Z.eqb_spec (Z.lor ModeDir (Z.land (Perm pm) ModeDir)) 0) as [H|H];
    [|reflexivity].
  apply Z.lor_eq_0_iff in H as [H _]. discriminate.
Qed.

Lemma Mkdir_then_Stat p perm w w' :
  faultless w -> Mkdir p perm w = (Ok tt, w') ->
  exists fi, Stat p w' = Ok fi /\ IsDir fi = true.
Proof.
  intros Hf. unfold Mkdir. rewrite Hf.
  destruct (resolve_new w p) as [en|l] eqn:Hr; [discriminate|].
  destruct (node_at (fs w) l) eqn:Hn; [discriminate|].
  intros [= <-]. unfold Stat, stat_with. simpl fault. rewrite Hf.
  unfold resolve_new in Hr. unfold resolve. simpl fs. simpl cwd.
  destruct (String.eqb p ""); [discriminate|].
  destruct (split_trailing p) as (trailing & -> & Htr).
  rewrite (namei_created _ _ (NDir (created_perm w perm)) true trailing Hn Htr
             (or_introl (ex_intro _ _ eq_refl)) _ _ _ Hr).
  assert (Hnew : node_at (<[l := NDir (created_perm w perm)]> (fs w)) l
                 = Some (NDir (created_perm w perm))).
  { destruct l; [discriminate|]. simpl. apply lookup_insert_eq. }
  rewrite Hnew. eexists. split; [reflexivity|]. apply IsDir_info.
Qed.

Lemma node_mode_link_iff n :
  (exists t, n = NLink t) <-> mode_IsSymlink (node_mode n) = true.
Proof.
  destruct n as [pm d|pm|t]; unfold mode_IsSymlink, node_mode.
  - split; [intros [t [=]]|]. unfold Perm.
    rewrite <- Z.land_assoc. change (Z.land ModePerm ModeSymlink) with 0.
    rewrite Z.land_0_r. discriminate.
  - split; [intros [t [=]]|]. rewrite Z.land_lor_distr_l.
    change (Z.land ModeDir ModeSymlink) with 0. unfold Perm.
    rewrite <- Z.land_assoc. change (Z.land ModePerm ModeSymlink) with 0.
    rewrite Z.land_0_r. discriminate.
  - split; [reflexivity|]. eauto.
Qed.

Lemma node_mode_dir_iff n :
  (exists pm, n = NDir pm) <-> mode_IsDir (node_mode n) = true.
Proof.
  destruct n as [pm d|pm|t]; unfold mode_IsDir, node_mode.
  - split; [intros [t [=]]|]. unfold Perm.
    rewrite <- Z.land_assoc. change (Z.land ModePerm ModeDir) with 0.
    rewrite Z.land_0_r. discriminate.
  - split; [|eauto]. intros _. apply (IsDir_info "" pm).
  - split; [intros [pm [=]]|]. discriminate.
Qed.

Lemma Lstat_dir_Stat p w fi :
  faultless w -> Lstat p w = Ok fi -> IsDir fi = true -> Stat p w = Ok fi.
Proof.
  intros Hf. unfold Lstat, Stat, stat_with. rewrite !Hf.
  unfold resolve. destruct (String.eqb p ""); [discriminate|].
  destruct (namei _ _ false _ _) as [en|l] eqn:Hr; [discriminate|].
  destruct (node_at (fs w) l) as [n|] eqn:Hn; [|discriminate].
  intros [= <-] Hd.
  assert (Hnl : forall t, node_at (fs w) l <> Some (NLink t)).
  { intros t Ht. rewrite Ht in Hn. injection Hn as <-. discriminate Hd. }
  rewrite (namei_final_not_link _ _ _ _ _ Hr Hnl). now rewrite Hn.
Qed.

Lemma extends_faultless w w' : extends w w' -> faultless w -> faultless w'.
Proof. intros [_ _ _ Hfault _] Hf sc p. now rewrite Hfault. Qed.

Lemma MkdirAll_ok_Stat p perm w w' :
  faultless w -> MkdirAll p perm w = (Ok tt, w') ->
  exists fi, Stat p w' = Ok fi /\ IsDir fi = true.
Proof.
  intros Hf. unfold MkdirAll. generalize (S (String.length p)) as fuel.
  intros fuel. destruct fuel as [|fuel]; simpl; [discriminate|].
  destruct (Stat p w) as [dir|err] eqn:Hst.
  { destruct (IsDir dir) eqn:Hd; [|discriminate]. intros [= <-]. eauto. }
  assert (Hlast : forall w1, extends w w1 ->
            match Mkdir p perm w1 with
            | (Fail err0, w2) =>
                match Lstat p w2 with
                | Ok dir => if IsDir dir then (Ok tt, w2) else (Fail err0, w2)
                | Fail _ => (Fail err0, w2)
                end
            | (Ok _, w2) => (Ok tt, w2)
            end = (Ok tt, w') ->
            exists fi, Stat p w' = Ok fi /\ IsDir fi = true).
  { intros w1 Hext. pose proof (extends_faultless _ _ Hext Hf) as Hf1.
    destruct (Mkdir p perm w1) as [[[]|err'] w2] eqn:Hmk.
    - intros [= <-]. eapply Mkdir_then_Stat; eauto.
    - pose proof (extends_faultless _ _ (Mkdir_extends _ _ _ _ _ Hmk) Hf1) as Hf2.
      destruct (Lstat p w2) as [dir|e2] eqn:Hl; [|discriminate].
      destruct (IsDir dir) eqn:Hd; [|discriminate]. intros [= <-].
      exists dir. split; [|exact Hd]. now apply Lstat_dir_Stat. }
  destruct (String.eqb (mkdir_parent p) "").
  - apply Hlast, extends_refl.
  - destruct (MkdirAll_rec fuel (mkdir_parent p) perm w) as [[[]|e1] w1] eqn:Hrec;
      [|discriminate].
    apply Hlast. eapply MkdirAll_rec_extends; eauto.
Qed.

Lemma MkdirAll_extends p perm w r w' :
  MkdirAll p perm w = (r, w') -> extends w w'.
Proof. apply MkdirAll_rec_extends. Qed.

Lemma MkdirAll_existing p perm w fi :
  Stat p w = Ok fi -> IsDir fi = true -> MkdirAll p perm w = (Ok tt, w).
Proof.
  intros Hst Hd. unfold MkdirAll. simpl. now rewrite Hst, Hd.
Qed.

Lemma Symlink_existing t p w fi :
  fault w SysSymlink p = None -> Lstat p w = Ok fi ->
  Symlink t p w = (Fail (PathError "symlink" p EEXIST), w).
Proof.
  intros Hf. unfold Lstat, stat_with, Symlink. rewrite Hf.
  destruct (fault w SysLstat p); [discriminate|].
  destruct (resolve w false p) as [en|l]; [discriminate|].
  now destruct (node_at (fs w) l).
Qed.

Lemma Symlink_then_Lstat t p w w' :
  faultless w -> Symlink t p w = (Ok tt, w') ->
  exists fi, Lstat p w' = Ok fi.
Proof.
  intros Hf. unfold Symlink. rewrite Hf.
  destruct (resolve w false p) as [en|l] eqn:Hr; [discriminate|].
  destruct (node_at (fs w) l) eqn:Hn; [discriminate|].
  intros [= <-]. unfold Lstat, stat_with. simpl fault. rewrite Hf.
  unfold resolve in *. simpl fs. simpl cwd.
  destruct (String.eqb p ""); [discriminate|].
  pose proof (namei_created _ _ (NLink t) false [] Hn ltac:(constructor)
                (or_intror (conj eq_refl (conj eq_refl (ex_intro _ _ eq_refl))))
                _ _ _ Hr) as H.
  rewrite app_nil_r in H. rewrite H.
  assert (Hnew : node_at (<[l := NLink t]> (fs w)) l = Some (NLink t)).
  { destruct l; [discriminate|]. simpl. apply lookup_insert_eq. }
  rewrite Hnew. eauto.
Qed.

Lemma stat_with_mode sc op follow p w fi :
  stat_with sc op follow p w = Ok fi -> exists n, fi_mode fi = node_mode n.
Proof.
  unfold stat_with. destruct (fault w sc p); [discriminate|].
  destruct (resolve w follow p) as [en|l]; [discriminate|].
  destruct (node_at (fs w) l) as [n|]; [|discriminate].
  intros [= <-]. now exists n.
Qed.

Lemma symlink_not_dir sc op follow p w fi :
  stat_with sc op follow p w = Ok fi ->
  Z.land (fi_mode fi) ModeSymlink <> 0 -> IsDir fi = false.
Proof.
  intros H Hm. apply stat_with_mode in H as [n Hn]. unfold IsDir. rewrite Hn in *.
  assert (Hl : mode_IsSymlink (node_mode n) = true).
  { unfold mode_IsSymlink. now destruct (Z.eqb_spec (Z.land (node_mode n) ModeSymlink) 0). }
  apply node_mode_link_iff in Hl as [t ->]. reflexivity.
Qed.

Lemma regular_mode m :
  mode_IsRegular m = true ->
  mode_IsDir m = false /\ (Z.land m ModeSymlink =? 0) = true.
Proof.
  unfold mode_IsRegular, mode_IsDir. intros H. apply Z.eqb_eq in H.
  assert (Hd : Z.land m ModeDir = 0).
  { change ModeDir with (Z.land ModeType ModeDir).
    now rewrite Z.land_assoc, H. }
  assert (Hs : Z.land m ModeSymlink = 0).
  { change ModeSymlink with (Z.land ModeType ModeSymlink).
    now rewrite Z.land_assoc, H. }
  rewrite Hd, Hs. split; reflexivity.
Qed.

(** ** The archive: packing and expanding *)

Lemma write_over_empty (b : bytes) : b ++ List.skipn (length b) [] = b.
Proof. now rewrite List.skipn_nil, app_nil_r. Qed.


Lemma strip_prefix_app (p r : string) :
  GoStrings.strip_prefix p (p +:+ r) = Some r.
Proof.
  induction p as [|a p IH]; simpl; [reflexivity|].
  now rewrite Ascii.eqb_refl.
Qed.

Lemma TrimPrefix_app (p r : string) : GoStrings.TrimPrefix (p +:+ r) p = r.
Proof. unfold GoStrings.TrimPrefix. now rewrite strip_prefix_app. Qed.

Lemma length_append (a b : string) :
  String.length (a +:+ b) = (String.length a + String.length b)%nat.
Proof. induction a as [|c a IH]; simpl; [reflexivity|]. now rewrite IH. Qed.

Lemma append_neq (b x : string) : x <> "" -> String.eqb (b +:+ x) b = false.
Proof.
  intros Hx. apply String.eqb_neq. intros H.
  apply (f_equal String.length) in H. rewrite length_append in H.
  destruct x; [congruence|]. simpl in H. lia.
Qed.

(** The entry the walk function writes for a path that extends the build
    path literally, by a separator and a relative path: it is named by the
    relative path. *)
Lemma entry_named_by_relative_path (s : snapshotter) (w : World)
    (rel link : string) (fi : FileInfo) (hdr : Header) (tw : TarWriter)
    (f : File) :
  let path := buildPath s +:+ "/" +:+ rel in
  tw_file tw = Some f ->
  fault w SysWrite (f_name f) = None ->
  (if negb (Z.land (fi_mode fi) ModeSymlink =? 0)
   then Readlink path w else Ok "") = Ok link ->
  FileInfoHeader fi link = Ok hdr ->
  exists r tw',
    snapshot_walkFn s w path (Some fi) None tw = (r, tw')
    /\ exists body,
         tw_entries tw' = tw_entries tw ++ [(set_Name hdr rel, body)]
         /\ (Typeflag hdr <> TypeReg -> r = Ok tt /\ body = [])
         /\ (Typeflag hdr = TypeReg -> forall data,
               ReadFile path w = Ok data -> r = Ok tt /\ body = data).
Proof.
  intros path Hf Hw Hlink Hhdr. unfold snapshot_walkFn.
  assert (Hne : String.eqb path (buildPath s) = false).
  { apply append_neq. discriminate. }
  rewrite Hne, Hlink, Hhdr.
  unfold path at 1. rewrite TrimPrefix_app.
  change filepath.sep with "/". rewrite (TrimPrefix_app "/" rel).
  unfold WriteHeader. rewrite Hf, Hw. cbn [tw_file tw_entries Typeflag set_Name].
  destruct (Typeflag hdr) eqn:Ht.
  2-7: do 2 eexists; split; [reflexivity|]; exists []; cbn [tw_entries];
       repeat split; congruence.
  unfold ReadFile.
  destruct (Open path w) as [[f0|e] w0] eqn:Hop.
  - destruct (File_ReadAll f0 w) as [data|e] eqn:Hrd.
    + unfold tw_Copy. cbn [tw_file tw_entries]. rewrite rev_app_distr.
      cbn [List.rev app]. rewrite Hw, rev_involutive.
      do 2 eexists; split; [reflexivity|]. exists data. cbn [tw_entries].
      repeat split; try congruence.
    + do 2 eexists; split; [reflexivity|]. exists []. cbn [tw_entries].
      repeat split; congruence.
  - do 2 eexists; split; [reflexivity|]. exists []. cbn [tw_entries].
    repeat split; congruence.
Qed.

(** C1, failing input.  [New("./snap", "out.tar.gz")] run in [/home] over
    the scenario's staging tree: [filepath.Walk] hands the walk function the
    cleaned paths [snap/proc], [snap/proc/cpuinfo], ..., from which
    [strings.TrimPrefix(path, "./snap")] strips nothing, so every entry is
    named with the staging root in front.  Expanded into the empty
    [/home/dest], the file reappears as [dest/snap/proc/cpuinfo]; nothing is
    at [dest/proc/cpuinfo]. *)
Theorem unclean_build_path_misnames_entries (c : Codec) :
  let s := new_snapshotter "./snap" "out.tar.gz" in
  let packed := createSnapshot c s Scenarios.staged in
  let expanded :=
    untar_loop "dest" (Scenarios.scenario_entries "snap/") None (snd packed) in
  fst packed = Ok tt
  /\ ReadFile "out.tar.gz" (snd packed)
     = Ok (gz_tar c (Scenarios.scenario_entries "snap/"))
  /\ fst expanded = Ok tt
  /\ ReadFile "dest/snap/proc/cpuinfo" (snd expanded) = Ok Scenarios.hello
  /\ ReadFile "dest/proc/cpuinfo" (snd expanded)
     = Fail (PathError "open" "dest/proc/cpuinfo" ENOENT).
Proof.
  vm_compute. repeat split; exact (f_equal Ok (write_over_empty _)).
Qed.

(** The same tree packed from the cleaned build path [/home/snap] and
    expanded into [/home/dest] comes back under its relative paths. *)
Example clean_build_path_round_trip (c : Codec) :
  let s := new_snapshotter "/home/snap/" "out.tar.gz" in
  let packed := createSnapshot c s Scenarios.staged in
  let expanded :=
    untar_loop "dest" (Scenarios.scenario_entries "") None (snd packed) in
  fst packed = Ok tt
  /\ ReadFile "out.tar.gz" (snd packed)
     = Ok (gz_tar c (Scenarios.scenario_entries ""))
  /\ fst expanded = Ok tt
  /\ ReadFile "dest/proc/cpuinfo" (snd expanded) = Ok Scenarios.hello
  /\ Readlink "dest/sys/class/net/eth0" (snd expanded)
     = Ok "../../devices/virtual/net/eth0"
  /\ ReadDir "dest/sys/block" (snd expanded) = Ok [].
Proof.
  vm_compute. repeat split; exact (f_equal Ok (write_over_empty _)).
Qed.

(** A build path with a doubled separator, as [os.MkdirTemp] returns under
    [TMPDIR=/home//]: the entries are named from the root directory. *)
Example doubled_separator_misnames_entries (c : Codec) :
  let s := new_snapshotter "/home//snap" "out.tar.gz" in
  let packed := createSnapshot c s Scenarios.staged in
  fst packed = Ok tt
  /\ ReadFile "out.tar.gz" (snd packed)
     = Ok (gz_tar c (Scenarios.scenario_entries "home/snap/")).
Proof.
  vm_compute. repeat split; exact (f_equal Ok (write_over_empty _)).
Qed.

(** An output path that holds a non-empty regular file makes
    [createSnapshot] fail before anything is written. *)
Lemma nonempty_output_refused (c : Codec) (s : snapshotter) (w : World)
    (fi : FileInfo) :
  Stat (outPath s) w = Ok fi ->
  fault w SysOpen (outPath s) = None ->
  mode_IsRegular (fi_mode fi) = true ->
  fi_size fi > 0 ->
  createSnapshot c s w
  = (Fail (ErrorString ("file " +:+ outPath s
                        +:+ " already exists and is of size >0")), w).
Proof.
  intros Hst Hf Hreg Hsz. unfold createSnapshot. rewrite Hst.
  unfold Stat, stat_with in Hst.
  destruct (fault w SysStat (outPath s)); [discriminate|].
  destruct (resolve w true (outPath s)) as [en|l] eqn:Hr; [discriminate|].
  destruct (node_at (fs w) l) as [n|] eqn:Hn; [|discriminate].
  injection Hst as <-. unfold OpenFile. rewrite Hf, Hr, Hn.
  destruct n as [pm d|pm|t].
  - change (has_flag O_WRONLY O_TRUNC) with false. cbv iota.
    unfold File_Stat. simpl f_node. rewrite Hn. simpl f_name.
    simpl fi_size in *. simpl node_size.
    destruct (Z.gtb_spec (Z.of_nat (length d)) 0); [reflexivity|lia].
  - exfalso. apply regular_mode in Hreg as [Hd _].
    cbn [fi_mode info_of] in Hd.
    assert (mode_IsDir (node_mode (NDir pm)) = true)
      by (apply node_mode_dir_iff; eauto).
    congruence.
  - exfalso. apply regular_mode in Hreg as [_ Hl].
    cbn [fi_mode info_of] in Hl.
    assert (H : mode_IsSymlink (node_mode (NLink t)) = true)
      by (apply node_mode_link_iff; eauto).
    unfold mode_IsSymlink in H. rewrite Hl in H. discriminate.
Qed.

(** C3, failing input.  When the output path holds an empty file, the
    branch that opens it binds a new [f], the outer [f] stays nil, and the
    first [tw.WriteHeader] fails with [os.ErrInvalid]: [createSnapshot]
    returns that error and the output file stays empty.  (When the output
    path is absent the archive is written; when it holds bytes the call
    fails before writing.) *)
Theorem empty_output_file_not_written (c : Codec) :
  let s := new_snapshotter "/home/snap" "out.tar.gz" in
  createSnapshot c s Scenarios.staged_empty_out
  = (Fail ErrInvalid, Scenarios.staged_empty_out)
  /\ ReadFile "out.tar.gz" Scenarios.staged_empty_out = Ok []
  /\ fst (createSnapshot c s Scenarios.staged) = Ok tt
  /\ ReadFile "out.tar.gz" (snd (createSnapshot c s Scenarios.staged))
     = Ok (gz_tar c (Scenarios.scenario_entries ""))
  /\ createSnapshot c s Scenarios.staged_full_out
     = (Fail (ErrorString "file out.tar.gz already exists and is of size >0"),
        Scenarios.staged_full_out).
Proof.
  vm_compute. repeat split; exact (f_equal Ok (write_over_empty _)).
Qed.

(** A regular entry expanded where nothing exists yet: the file is created
    with the stored permission bits, less the creation mask, and holds
    exactly the stored bytes. *)
Lemma fresh_regular_entry_exact (toPath : string) (h : Header) (body : bytes)
    (w : World) (l : loc) :
  Typeflag h = TypeReg ->
  faultless w ->
  resolve w true (filepath.Join [toPath; Name h]) = inr l ->
  node_at (fs w) l = None ->
  exists w',
    untar_entry toPath (h, body) w = (Ok tt, w')
    /\ node_at (fs w') l = Some (NFile (created_perm w (Mode h)) body).
Proof.
  intros Ht Hf Hr Hn. unfold untar_entry. rewrite Ht.
  unfold OpenFile. rewrite Hf, Hr, Hn.
  change (has_flag (Z.lor O_CREATE O_RDWR) O_CREATE) with true. cbv iota.
  unfold File_Write. simpl fault. rewrite Hf. simpl f_node. simpl fs.
  assert (Hl : l <> []) by (intros ->; discriminate).
  assert (Hnew : forall (m : gmap loc Node) x, node_at (<[l := x]> m) l = Some x).
  { intros m x. destruct l; [congruence|]. simpl. apply lookup_insert_eq. }
  rewrite Hnew. eexists. split; [reflexivity|]. simpl fs.
  rewrite Hnew, List.skipn_nil, app_nil_r. reflexivity.
Qed.

(** A symbolic-link entry expanded where nothing exists yet: the link is
    there afterwards, with the stored target. *)
Lemma fresh_symlink_entry_exact (toPath : string) (h : Header) (body : bytes)
    (w : World) (l : loc) :
  Typeflag h = TypeSymlink ->
  faultless w ->
  resolve w false (filepath.Join [toPath; Name h]) = inr l ->
  node_at (fs w) l = None ->
  exists w',
    untar_entry toPath (h, body) w = (Ok tt, w')
    /\ Readlink (filepath.Join [toPath; Name h]) w' = Ok (Linkname h).
Proof.
  intros Ht Hf Hr Hn. unfold untar_entry. rewrite Ht.
  unfold Symlink. rewrite Hf, Hr, Hn. eexists. split; [reflexivity|].
  unfold Readlink. simpl fault. rewrite Hf.
  unfold resolve in *. simpl fs. simpl cwd.
  destruct (String.eqb (filepath.Join [toPath; Name h]) ""); [discriminate|].
  pose proof (namei_created _ _ (NLink (Linkname h)) false [] Hn
                ltac:(constructor)
                (or_intror (conj eq_refl (conj eq_refl (ex_intro _ _ eq_refl))))
                _ _ _ Hr) as H.
  rewrite app_nil_r in H. rewrite H.
  assert (Hnew : node_at (<[l := NLink (Linkname h)]> (fs w)) l
                 = Some (NLink (Linkname h))).
  { destruct l; [discriminate|]. simpl. apply lookup_insert_eq. }
  now rewrite Hnew.
Qed.

(** A directory entry expanded: when [os.MkdirAll] succeeds the directory
    is there afterwards, and nothing that was there has changed. *)
Lemma directory_entry_created (toPath : string) (h : Header) (body : bytes)
    (w w' : World) :
  Typeflag h = TypeDir ->
  faultless w ->
  untar_entry toPath (h, body) w = (Ok tt, w') ->
  extends w w'
  /\ exists fi, Stat (filepath.Join [toPath; Name h]) w' = Ok fi
                /\ IsDir fi = true.
Proof.
  intros Ht Hf. unfold untar_entry. rewrite Ht. intros Hmk. split.
  - eapply MkdirAll_extends; eauto.
  - eapply MkdirAll_ok_Stat; eauto.
Qed.

(** C9, failing input.  Two regular entries named [motd], the first with
    the six bytes of [hello] and mode 0o644, the second with the two bytes
    [hi] and mode 0o600: the second [os.OpenFile] has no [O_TRUNC] and
    creates nothing, so the file ends up holding [hi] followed by the last
    four bytes of the first body, still with the first entry's mode. *)
Theorem duplicate_entry_not_truncated :
  let expanded :=
    untar_loop "dest" Scenarios.duplicate_entries None Scenarios.staged in
  fst expanded = Ok tt
  /\ ReadFile "dest/motd" (snd expanded)
     = Ok (list_byte_of_string ("hillo" +:+ String "010" ""))
  /\ option_map fi_mode
       (match Lstat "dest/motd" (snd expanded) with
        | Ok fi => Some fi | Fail _ => None end)
     = Some 420.
Proof. vm_compute. repeat split. Qed.

(** C2.  When the destination exists and lists at least one entry,
    [Expand] returns the error saying the target directory is not empty and
    leaves the world as it was, whatever the archive path and whether or not
    an archive is there: nothing is opened or read, nothing in the
    destination is touched.  (A destination that exists and cannot be
    listed, such as a regular file, is refused the same way.)  When [os.Stat] says the destination does not
    exist, [Expand] first creates it with [os.MkdirAll]; a failure of that is
    returned, and after its success the destination is a directory and the
    archive is opened and expanded into it. *)
Theorem expand_guards_destination (c : Codec) (fromPath toPath : string)
    (w : World) :
  (forall fi e es,
      Stat toPath w = Ok fi -> ReadDir toPath w = Ok (e :: es) ->
      Expand c fromPath toPath w
      = (Fail (ErrorString ("target directory " +:+ toPath +:+ " is not empty")),
         w))
  /\ (forall fi err,
        Stat toPath w = Ok fi -> ReadDir toPath w = Fail err ->
        Expand c fromPath toPath w
        = (Fail (ErrorString ("target directory " +:+ toPath +:+ " is not empty")),
           w))
  /\ (forall err r w1,
        Stat toPath w = Fail err -> is_ErrNotExist err = true ->
        MkdirAll toPath ModePerm w = (r, w1) ->
        match r with
        | Fail e => Expand c fromPath toPath w = (Fail e, w1)
        | Ok _ =>
            Expand c fromPath toPath w
            = match Open fromPath w1 with
              | (Fail e, w2) => (Fail e, w2)
              | (Ok snap, w2) => untar c (File_ReadAll snap w2) toPath w2
              end
            /\ (faultless w ->
                exists fi, Stat toPath w1 = Ok fi /\ IsDir fi = true)
        end).
Proof.
  split; [|split].
  - intros fi e es Hst Hrd. unfold Expand, exists_, isEmptyDir.
    now rewrite Hst, Hrd.
  - intros fi err Hst Hrd. unfold Expand, exists_, isEmptyDir.
    now rewrite Hst, Hrd.
  - intros err r w1 Hst Hne Hmk. unfold Expand, exists_.
    rewrite Hst, Hne. simpl negb. cbv iota. rewrite Hmk.
    destruct r as [[]|e]; [|reflexivity].
    split; [reflexivity|]. intros Hf. eapply MkdirAll_ok_Stat; eauto.
Qed.

(** ** The staging tree: links and pseudo-files *)


(** C8.  For a path that [os.Lstat] shows as a regular file, the error of
    [copyPseudoFile], if any, is the one met reading the file or creating
    and writing its copy; when it is a permission error [copyFile] returns
    nil and the capture goes on with the remaining matches and patterns,
    and any other error is returned by [copyFile], by the loop over the
    matches and by [copyFileGlobs], which copy nothing further. *)
Theorem permission_denied_is_skipped (s : snapshotter) (path : string)
    (w w1 w2 : World) (fi : FileInfo) (r : result unit)
    (Hdir : addDir s (filepath.Dir path) w = (Ok tt, w1))
    (Hstat : Lstat path w1 = Ok fi)
    (Hreg : mode_IsRegular (fi_mode fi) = true)
    (Hcopy : copyPseudoFile path (filepath.Join [buildPath s; path]) w1 = (r, w2)) :
  let destPath := filepath.Join [buildPath s; path] in
  match r with
  | Ok _ => copyFile s path w = (Ok tt, w2)
  | Fail err =>
      (ReadFile path w1 = Fail err
       \/ exists buf, ReadFile path w1 = Ok buf
            /\ (Create destPath w1 = (Fail err, w2)
                \/ exists f w', Create destPath w1 = (Ok f, w')
                                /\ File_Write f buf w' = (Fail err, w2)))
      /\ if is_ErrPermission err
         then copyFile s path w = (Ok tt, w2)
              /\ (forall rest,
                    copy_matches s (path :: rest) w = copy_matches s rest w2)
              /\ (forall glob globs rest, Glob glob w = Ok (path :: rest) ->
                    copyFileGlobs s (glob :: globs) w
                    = match copy_matches s rest w2 with
                      | (Fail e, w3) => (Fail e, w3)
                      | (Ok _, w3) => copyFileGlobs s globs w3
                      end)
         else copyFile s path w = (Fail err, w2)
              /\ (forall rest,
                    copy_matches s (path :: rest) w = (Fail err, w2))
              /\ (forall glob globs rest, Glob glob w = Ok (path :: rest) ->
                    copyFileGlobs s (glob :: globs) w = (Fail err, w2))
  end.
Proof.
  intros destPath. fold destPath in Hcopy.
  destruct (regular_mode _ Hreg) as [Hnd Hnl].
  assert (Hcf : copyFile s path w
                = match r with
                  | Fail err =>
                      if negb (is_ErrPermission err) then (Fail err, w2)
                      else (Ok tt, w2)
                  | Ok _ => (Ok tt, w2)
                  end).
  { unfold copyFile. rewrite Hdir, Hstat. unfold IsDir. rewrite Hnd, Hnl.
    simpl negb. cbv iota. fold destPath. rewrite Hcopy. now destruct r. }
  destruct r as [[]|err]; [exact Hcf|].
  split.
  - unfold copyPseudoFile in Hcopy.
    destruct (ReadFile path w1) as [buf|e] eqn:Hrf.
    + right. exists buf. split; [reflexivity|].
      destruct (Create destPath w1) as [[f|e] w'] eqn:Hcr.
      * right. exists f, w'. split; [reflexivity|].
        destruct (File_Write f buf w') as [[[]|e] w''] eqn:Hwr; [discriminate|].
        now injection Hcopy as -> ->.
      * left. now injection Hcopy as -> ->.
    + left. now injection Hcopy as -> ->.
  - destruct (is_ErrPermission err); simpl negb in Hcf; cbv iota in Hcf.
    + repeat split; [exact Hcf| |].
      * intros rest. simpl. now rewrite Hcf.
      * intros glob globs rest Hg. simpl. rewrite Hg. simpl. now rewrite Hcf.
    + repeat split; [exact Hcf| |].
      * intros rest. simpl. now rewrite Hcf.
      * intros glob globs rest Hg. simpl. rewrite Hg. simpl. now rewrite Hcf.
Qed.

(** ** The theorems at concrete inputs *)

Lemma live_net_listing :
  ReadDir (filepath.Join ["sys"; "class"; "net"]) Scenarios.live_faultless
  = Ok [ {| de_name := "eth0"; de_type := ModeSymlink |};
         {| de_name := "lo"; de_type := ModeSymlink |} ].
Proof. vm_compute. reflexivity. Qed.

(** On the live tree the network class lists [eth0] and [lo]; the link of
    [lo] goes under [devices/virtual/net], so only [eth0] is accepted. *)
Lemma filters_compose_witness :
  netGlobs Scenarios.live_faultless
  = List.flat_map
      (class_specs (filepath.Join ["sys"; "class"; "net"]) ["addr_assign_type"]
         Scenarios.live_faultless)
      (List.filter
         (fun e =>
            negb (GoStrings.Contains
                    (link_target (filepath.Join ["sys"; "class"; "net"])
                       Scenarios.live_faultless e)
                    "devices/virtual/net"))
         [ {| de_name := "eth0"; de_type := ModeSymlink |};
           {| de_name := "lo"; de_type := ModeSymlink |} ]).
Proof.
  refine (proj2 (proj2 (proj2
            (filters_compose "net" ["addr_assign_type"] filterNone filterNone
               Scenarios.live_faultless _ live_net_listing _))) eq_refl).
  intros e [<-|[<-|[]]]; eexists; vm_compute; reflexivity.
Defined.

(** Opening [/sys/firmware/secret] is denied: the file is skipped and the
    capture goes on. *)
Lemma permission_skip_witness :
  let s := Scenarios.tmp_snapshotter in
  let w1 := snd (addDir s (filepath.Dir "/sys/firmware/secret") Scenarios.live) in
  copyFile s "/sys/firmware/secret" Scenarios.live = (Ok tt, w1)
  /\ forall rest,
       copy_matches s ("/sys/firmware/secret" :: rest) Scenarios.live
       = copy_matches s rest w1.
Proof.
  intros s w1.
  assert (H1 : addDir s (filepath.Dir "/sys/firmware/secret") Scenarios.live
               = (Ok tt, w1)) by (vm_compute; reflexivity).
  assert (H2 : Lstat "/sys/firmware/secret" w1
               = Ok (Scenarios.info_or_zero (Lstat "/sys/firmware/secret" w1)))
    by (vm_compute; reflexivity).
  assert (H3 : mode_IsRegular
                 (fi_mode (Scenarios.info_or_zero
                             (Lstat "/sys/firmware/secret" w1))) = true)
    by (vm_compute; reflexivity).
  assert (H4 : copyPseudoFile "/sys/firmware/secret"
                 (filepath.Join [buildPath s; "/sys/firmware/secret"]) w1
               = (Fail (PathError "open" "/sys/firmware/secret" EACCES), w1))
    by (vm_compute; reflexivity).
  pose proof (permission_denied_is_skipped s "/sys/firmware/secret"
                Scenarios.live w1 w1 _ _ H1 H2 H3 H4) as H.
  cbv beta iota zeta delta [is_ErrPermission] in H.
  destruct H as (_ & Ha & Hb & _). split; [exact Ha|exact Hb].
Defined.

(** Reading [/sys/firmware/broken] fails with an I/O error: the capture
    stops there and [/sys/firmware/plain] is not copied. *)
Example io_error_aborts_capture :
  let s := Scenarios.tmp_snapshotter in
  let r := copy_matches s ["/sys/firmware/broken"; "/sys/firmware/plain"]
             Scenarios.live in
  fst r = Fail (PathError "read" "/sys/firmware/broken" EIO)
  /\ Lstat "/tmp/snap/sys/firmware/plain" (snd r)
     = Fail (PathError "lstat" "/tmp/snap/sys/firmware/plain" ENOENT).
Proof. vm_compute. repeat split. Qed.

(** After the denied [/sys/firmware/secret] the capture copies
    [/sys/firmware/plain]. *)
Example capture_continues_after_skip :
  let s := Scenarios.tmp_snapshotter in
  let r := copy_matches s ["/sys/firmware/secret"; "/sys/firmware/plain"]
             Scenarios.live in
  fst r = Ok tt
  /\ ReadFile "/tmp/snap/sys/firmware/plain" (snd r) = Ok Scenarios.hello
  /\ Lstat "/tmp/snap/sys/firmware/secret" (snd r)
     = Fail (PathError "lstat" "/tmp/snap/sys/firmware/secret" ENOENT).
Proof. vm_compute. repeat split. Qed.


End Facts.
